(** * Relay static runtime: query, mutation and subscription lifecycle

    A shallow embedding of

      - [RelayNetwork]              (create / request / requestSubscription /
                                     normalizePayload),
      - [RelayStaticEnvironment]    (applyUpdate, commitPayload, lookup,
                                     sendQuery, sendQuerySubscription,
                                     sendMutation),
      - [commitRelayStaticMutation],

    together with a model of the publish queue the environment drives.

    JavaScript closures that capture mutable variables ([isDisposed],
    [optimisticUpdater]) become records holding those variables; promise
    handlers become functions from the settled value to an action on the
    world; the world carries the publish queue, the record store and a log
    of every call made to a collaborator or to an application callback. *)

From Stdlib Require Import String List ZArith Bool Lia.
From stdpp Require Import base gmap strings list fin_maps.

Local Open Scope string_scope.

(** ** Data model *)

Definition DataID := string.

(** Field values of a normalized record: scalars or a reference to another
    record's identity. *)
Inductive Value :=
| VNull
| VBool (b : bool)
| VInt (n : Z)
| VString (s : string)
| VRef (id : DataID).

(** A record maps field names to values; a record source maps identities to
    records. *)
Abbreviation RelayRecord := (gmap string Value).
Abbreviation RecordSource := (gmap string (gmap string Value)).
Abbreviation Variables := (gmap string Value).

(** Raw JSON as it arrives from the server. *)
#[warnings="-register-all"]
Inductive JSON :=
| JNull
| JBool (b : bool)
| JNumber (n : Z)
| JString (s : string)
| JArray (items : list JSON)
| JObject (fields : list (string * JSON)).

Definition PayloadData := JSON.

(** [{message: string}] entries of a response's [errors] list. *)
Record PayloadError := { message : string }.

(** [QueryPayload]: [data] is [None] for JS [null]/[undefined]; [errors] is
    [None] when the property is absent (or null), [Some l] for an array,
    empty or not. *)
Record QueryPayload := {
  data : option PayloadData;
  errors : option (list PayloadError)
}.

(** Compiled documents are opaque here; they are identified by name. *)
Definition ConcreteNode := string.

Record ConcreteBatch := {
  name : string;
  query : ConcreteNode
}.

Record Selector := {
  dataID : DataID;
  node : ConcreteNode;
  variables : Variables
}.

Record OperationSelector := {
  op_fragment : Selector;
  op_node : ConcreteBatch;
  op_root : Selector;
  op_variables : Variables
}.

Record CacheConfig := { force : bool }.

Record NormalizationOptions := { handleStrippedNulls : bool }.

Record HandleFieldPayload := {
  hfp_dataID : DataID;
  hfp_fieldKey : string;
  hfp_handle : string
}.

Record RelayResponsePayload := {
  fieldPayloads : list HandleFieldPayload;
  source : RecordSource
}.

Record Snapshot := {
  snapshot_data : option JSON;
  snapshot_seenRecords : list DataID
}.

(** The [source] property attached to the error of a response without data. *)
Record ErrorSource := {
  src_errors : option (list PayloadError);
  src_operation : ConcreteBatch;
  src_variables : Variables
}.

(** An error value.  [RelayError.create(name, format, ...args)] is kept as
    the arguments it was called with; [error_source] is the [source]
    property, absent on errors that come from the transport. *)
Record Error := {
  error_name : string;
  error_format : string;
  error_args : list string;
  error_source : option ErrorSource
}.

(** A JS function value handed to the runtime as an updater: its reference
    (the identity [revertUpdate] matches on) and, as section 3 of the
    specification has it, the writes it derives from the record set it is
    run against. *)
Record StoreUpdater := {
  updater_ref : nat;
  updater_writes : RecordSource -> RecordSource
}.

Abbreviation SelectorStoreUpdater := StoreUpdater.

(** The value a promise settles with. *)
Inductive Settled (A : Type) :=
| Resolved (value : A)
| Rejected (reason : Error).
Arguments Resolved {A} value.
Arguments Rejected {A} reason.

(** The outcome of a call that may throw. *)
Inductive Completion (A : Type) :=
| Return (value : A)
| Throw (error : Error).
Arguments Return {A} value.
Arguments Throw {A} error.

(** ** The publish queue *)

Module RelayPublishQueue.

(** Modelled from the spec: [RelayPublishQueue], which the environment
    requires and whose source is not at hand.  Section 3 of the
    specification gives the pending entries, section 4.1 the four
    operations. *)
Inductive PendingEntry :=
| Commit (selector : Selector) (payload : RelayResponsePayload)
         (updater : option SelectorStoreUpdater)
| Optimistic (update : StoreUpdater).

(** Modelled from the spec: the queue is the last confirmed base and the
    pending entries in insertion order. *)
Record t := {
  base : RecordSource;
  entries : list PendingEntry
}.

(** Modelled from the spec: a set of [(identity, field, value)] writes put
    on top of a record set; a written field replaces the field of the same
    name, other fields and records stay. *)
Definition publish (writes target : RecordSource) : RecordSource :=
  union_with (λ new old, Some (new ∪ old)) writes target.

(** Modelled from the spec: an update is a function from the current
    record set to a set of writes; running it puts those writes on top. *)
Definition runUpdater (u : StoreUpdater) (records : RecordSource)
  : RecordSource :=
  publish (updater_writes u records) records.

(** Modelled from the spec: the two kinds of pending entry. *)
Definition isOptimistic (e : PendingEntry) : bool :=
  match e with Optimistic _ => true | Commit _ _ _ => false end.

(** Modelled from the spec: an optimistic entry is matched by the
    reference of its function; a commit entry is never matched. *)
Definition matches (r : nat) (e : PendingEntry) : bool :=
  match e with
  | Optimistic u => Nat.eqb (updater_ref u) r
  | Commit _ _ _ => false
  end.

(** Modelled from the spec: an entry with reference [r] is currently
    queued. *)
Definition queued (r : nat) (q : t) : bool := existsb (matches r) (entries q).

(** Modelled from the spec: [applyUpdate] appends an optimistic entry.
    Applying a reference that is already queued is left undefined by the
    specification; here it queues a second entry, and the properties below
    assume it does not happen. *)
Definition applyUpdate (u : StoreUpdater) (q : t) : t :=
  {| base := base q; entries := entries q ++ [Optimistic u] |}.

(** Modelled from the spec: removal of the first entry matched by [r],
    at whatever position. *)
Fixpoint removeEntry (r : nat) (es : list PendingEntry) : list PendingEntry :=
  match es with
  | [] => []
  | e :: es' => if matches r e then es' else e :: removeEntry r es'
  end.

(** Modelled from the spec: [revertUpdate] removes the optimistic entry
    with the given reference wherever it sits; when none is queued nothing
    happens. *)
Definition revertUpdate (u : StoreUpdater) (q : t) : t :=
  {| base := base q; entries := removeEntry (updater_ref u) (entries q) |}.

(** Modelled from the spec: [commitPayload] appends a confirmed entry. *)
Definition commitPayload (selector : Selector) (payload : RelayResponsePayload)
    (updater : option SelectorStoreUpdater) (q : t) : t :=
  {| base := base q; entries := entries q ++ [Commit selector payload updater] |}.

(** Modelled from the spec: the effect of a commit entry on the base: the
    payload's writes, then the optional updater, once. *)
Definition applyCommit (records : RecordSource) (e : PendingEntry)
  : RecordSource :=
  match e with
  | Commit _ payload updater =>
      let written := publish (source payload) records in
      match updater with
      | Some u => runUpdater u written
      | None => written
      end
  | Optimistic _ => records
  end.

(** Modelled from the spec: the effect of an optimistic entry on the
    record set it is layered on. *)
Definition applyOptimistic (records : RecordSource) (e : PendingEntry)
  : RecordSource :=
  match e with
  | Optimistic u => runUpdater u records
  | Commit _ _ _ => records
  end.

(** Modelled from the spec: the confirmed base after all commit entries
    were applied in insertion order. *)
Definition rebase (q : t) : RecordSource :=
  fold_left applyCommit (entries q) (base q).

(** Modelled from the spec: the record state [run] computes, the queued
    optimistic entries re-applied in insertion order on the confirmed
    base. *)
Definition layered (q : t) : RecordSource :=
  fold_left applyOptimistic (entries q) (rebase q).

(** Modelled from the spec: [run] applies the commit entries to the base
    in insertion order, layers the queued optimistic entries on top in
    insertion order, hands the result to the store, drops the commit
    entries (they are now part of the base) and keeps the optimistic
    ones.  The result is the new queue and the record set published. *)
Definition run (q : t) : t * RecordSource :=
  ({| base := rebase q; entries := List.filter isOptimistic (entries q) |},
   layered q).

End RelayPublishQueue.

(** ** The world the runtime acts on *)

(** Every call that leaves the modelled code is logged: calls to the publish
    queue, to the transport, to the normalizer, to the store, to [warning],
    and to the callbacks the application supplied (identified by
    reference). *)
Inductive Event :=
| EvFetch (operation : ConcreteBatch) (vars : Variables)
          (cacheConfig : option CacheConfig)
| EvNormalize (selector : Selector) (payload : PayloadData)
              (options : option NormalizationOptions)
| EvWarning (format : string) (operationName : string) (vars : Variables)
            (detail : string)
| EvApplyUpdate (updater : nat)
| EvRevertUpdate (updater : nat)
| EvCommitPayload (selector : Selector) (payload : RelayResponsePayload)
                  (updater : option nat)
| EvRun
| EvLookup (selector : Selector)
| EvOnNext (callback : nat) (payload : RelayResponsePayload)
| EvOnCompleted (callback : nat) (response : option JSON)
| EvOnError (callback : nat) (error : Error).

Record World := {
  publishQueue : RelayPublishQueue.t;
  store : RecordSource;
  log : list Event
}.

Definition Action := World -> World.

Definition seq (a b : Action) : Action := fun w => b (a w).
Declare Scope action_scope.
Delimit Scope action_scope with action.
Bind Scope action_scope with Action.
Notation "a ;; b" := (seq a b)
  (at level 100, b at level 200, right associativity) : action_scope.
Local Open Scope action_scope.

Definition skip : Action := fun w => w.

Definition emit (e : Event) : Action :=
  fun w => {| publishQueue := publishQueue w; store := store w;
              log := log w ++ [e] |}.

(** A call that may throw: what it completes with and the world it
    leaves.  Callbacks of the application are such calls. *)
Definition Task := World -> Completion unit * World.

(** A call that always returns. *)
Definition returning (a : Action) : Task := fun w => (Return tt, a w).

(** Two statements in a row: the second is not reached when the first
    throws. *)
Definition andThen (a b : Task) : Task :=
  fun w =>
    match a w with
    | (Return _, w') => b w'
    | (Throw error, w') => (Throw error, w')
    end.
Declare Scope task_scope.
Delimit Scope task_scope with task.
Bind Scope task_scope with Task.
Notation "a >> b" := (andThen a b)
  (at level 100, b at level 200, right associativity) : task_scope.
Local Open Scope task_scope.

(** [promise.then(f).catch(g)] on a fulfilled promise: [g] receives what
    [f] throws. *)
Definition catching (f : Task) (g : Error -> Task) : Task :=
  fun w =>
    match f w with
    | (Return _, w') => (Return tt, w')
    | (Throw error, w') => g error w'
    end.

(** The world a promise handler leaves behind; the promise it settles is
    not kept by the caller, so an exception nobody catches is dropped. *)
Definition outcome (t : Task) : Action := fun w => snd (t w).

(** [f && f(x)] *)
Definition callIf {A : Type} (f : option (A -> Task)) (x : A) : Task :=
  match f with
  | Some g => g x
  | None => returning skip
  end.

(** Calls to [this._publishQueue]. *)
Definition publishQueue_applyUpdate (u : StoreUpdater) : Action :=
  fun w => {| publishQueue := RelayPublishQueue.applyUpdate u (publishQueue w);
              store := store w;
              log := log w ++ [EvApplyUpdate (updater_ref u)] |}.

Definition publishQueue_revertUpdate (u : StoreUpdater) : Action :=
  fun w => {| publishQueue := RelayPublishQueue.revertUpdate u (publishQueue w);
              store := store w;
              log := log w ++ [EvRevertUpdate (updater_ref u)] |}.

Definition publishQueue_commitPayload (selector : Selector)
    (payload : RelayResponsePayload) (updater : option SelectorStoreUpdater)
  : Action :=
  fun w => {| publishQueue :=
                RelayPublishQueue.commitPayload selector payload updater
                  (publishQueue w);
              store := store w;
              log := log w ++
                     [EvCommitPayload selector payload
                        (option_map updater_ref updater)] |}.

Definition publishQueue_run : Action :=
  fun w => {| publishQueue := fst (RelayPublishQueue.run (publishQueue w));
              store := snd (RelayPublishQueue.run (publishQueue w));
              log := log w ++ [EvRun] |}.

(** Callbacks of the application are outside the modelled code: calling one
    is an event that carries the callback's reference and its argument.
    The callbacks below return; [throwingNext] is an [onNext] that throws. *)
Definition observeNext (r : nat) : RelayResponsePayload -> Task :=
  fun payload => returning (emit (EvOnNext r payload)).

Definition observeCompleted (r : nat) : unit -> Task :=
  fun _ => returning (emit (EvOnCompleted r None)).

Definition observeResponse (r : nat) : option JSON -> Task :=
  fun response => returning (emit (EvOnCompleted r response)).

Definition observeError (r : nat) : Error -> Task :=
  fun error => returning (emit (EvOnError r error)).

Definition throwingNext (r : nat) (thrown : Error)
  : RelayResponsePayload -> Task :=
  fun payload w => (Throw thrown, emit (EvOnNext r payload) w).

(** Modules the sources require and that are not at hand enter as
    parameters: [ROOT_ID] of [RelayStoreUtils], [normalizeRelayPayload] (its
    [options] argument is [None] when the caller passes none), the store's
    [lookup], and [getOperation] / [createOperationSelector] of
    [environment.unstable_internal].  The normalizer may throw on data it
    cannot normalize. *)
Definition GraphQLTaggedNode := string.

Record Collaborators := {
  ROOT_ID : DataID;
  normalizeRelayPayload :
    Selector -> PayloadData -> option NormalizationOptions ->
    Completion RelayResponsePayload;
  store_lookup : RecordSource -> Selector -> Snapshot;
  getOperation : GraphQLTaggedNode -> ConcreteBatch;
  createOperationSelector : ConcreteBatch -> Variables -> OperationSelector
}.

Definition newline : string := String (Ascii.ascii_of_nat 10) EmptyString.

(** ** RelayNetwork *)

Module RelayNetwork.
Section Network.
Context (X : Collaborators).

Record Observer := {
  obs_onCompleted : option (unit -> Task);
  obs_onError : option (Error -> Task);
  obs_onNext : option (RelayResponsePayload -> Task)
}.

Definition RelayError_create (name format : string) (args : list string)
  : Error :=
  {| error_name := name; error_format := format; error_args := args;
     error_source := None |}.

Definition withSource (e : Error) (s : ErrorSource) : Error :=
  {| error_name := error_name e; error_format := error_format e;
     error_args := error_args e; error_source := Some s |}.

Definition warningFormat : string :=
  "RelayNetwork: Operation completed but had errors:" +:+ newline +:+
  "Operation: %s" +:+ newline +:+
  "Variables:" +:+ newline +:+ "%s" +:+ newline +:+
  "Errors:" +:+ newline +:+ "%s".

Definition noDataFormat : string :=
  "No data returned for operation `%s`, got error(s):" +:+ newline +:+
  "%s" +:+ newline +:+ newline +:+
  "See the error `source` property for more information.".

(** [errors.map(f).join('\n')] *)
Definition joinLines (f : PayloadError -> string) (errs : list PayloadError)
  : string :=
  String.concat newline (map f errs).

(** The [warning(false, ...)] of a response with data and errors. *)
Definition errorsWarning (operation : ConcreteBatch) (variables : Variables)
    (errs : list PayloadError) : Event :=
  EvWarning warningFormat (name operation) variables
    (joinLines (fun e => "- " +:+ message e) errs).

(** The error thrown for a response without data. *)
Definition noDataError (operation : ConcreteBatch) (variables : Variables)
    (errors : option (list PayloadError)) : Error :=
  let error :=
    RelayError_create "RelayNetwork" noDataFormat
      [name operation;
       match errors with
       | Some errs => joinLines message errs
       | None => "(No errors)"
       end] in
  withSource error
    {| src_errors := errors; src_operation := operation;
       src_variables := variables |}.

Definition normalizePayload (operation : ConcreteBatch)
    (variables : Variables) (payload : QueryPayload) (w : World)
  : Completion RelayResponsePayload * World :=
  match data payload with
  | Some d =>
      let w1 :=
        match errors payload with
        | Some (e :: es) => emit (errorsWarning operation variables (e :: es)) w
        | _ => w
        end in
      let selector :=
        {| dataID := ROOT_ID X; node := query operation;
           variables := variables |} in
      let options := Some {| handleStrippedNulls := true |} in
      (normalizeRelayPayload X selector d options,
       emit (EvNormalize selector d options) w1)
  | None => (Throw (noDataError operation variables (errors payload)), w)
  end.

(** [request]: the call itself invokes [fetch]; [request_resume] is the
    rest of the async function, run when the fetch promise settles, and
    gives the value the promise returned by [request] settles with. *)
Definition request (operation : ConcreteBatch) (variables : Variables)
    (cacheConfig : option CacheConfig) : Action :=
  emit (EvFetch operation variables cacheConfig).

Definition request_resume (operation : ConcreteBatch)
    (variables : Variables) (fetched : Settled QueryPayload) (w : World)
  : Settled RelayResponsePayload * World :=
  match fetched with
  | Resolved payload =>
      match normalizePayload operation variables payload w with
      | (Return relayPayload, w') => (Resolved relayPayload, w')
      | (Throw err, w') => (Rejected err, w')
      end
  | Rejected error => (Rejected error, w)
  end.

(** [requestSubscription]: the closure holds [isDisposed]. *)
Record Subscription := {
  sub_isDisposed : bool;
  sub_operation : ConcreteBatch;
  sub_variables : Variables;
  sub_observer : Observer
}.

Definition requestSubscription (operation : ConcreteBatch)
    (variables : Variables) (cacheConfig : option CacheConfig)
    (observer : Observer) (w : World) : Subscription * World :=
  ({| sub_isDisposed := false; sub_operation := operation;
      sub_variables := variables; sub_observer := observer |},
   emit (EvFetch operation variables cacheConfig) w).

Definition subscription_dispose (s : Subscription) : Subscription :=
  {| sub_isDisposed := true; sub_operation := sub_operation s;
     sub_variables := sub_variables s; sub_observer := sub_observer s |}.

(** The two handlers given to [fetch(...).then(_, _)]. *)
Definition subscription_fulfilled (s : Subscription) (payload : QueryPayload)
  : Task :=
  fun w =>
    if sub_isDisposed s then (Return tt, w)
    else
      match normalizePayload (sub_operation s) (sub_variables s) payload w with
      | (Throw err, w') => callIf (obs_onError (sub_observer s)) err w'
      | (Return relayPayload, w') =>
          (callIf (obs_onNext (sub_observer s)) relayPayload >>
           callIf (obs_onCompleted (sub_observer s)) tt) w'
      end.

Definition subscription_rejected (s : Subscription) (error : Error)
  : Task :=
  if sub_isDisposed s then returning skip
  else callIf (obs_onError (sub_observer s)) error.

(** [promise.then(f, g)]: [f] on fulfilment, [g] on rejection; what [f]
    throws does not reach [g]. *)
Definition subscription_settle (s : Subscription)
    (fetched : Settled QueryPayload) : Action :=
  match fetched with
  | Resolved payload => outcome (subscription_fulfilled s payload)
  | Rejected error => outcome (subscription_rejected s error)
  end.

End Network.
End RelayNetwork.

(** ** RelayStaticEnvironment *)

Module RelayStaticEnvironment.
Section Environment.
Context (X : Collaborators).

(** [applyUpdate(updater)] and the [dispose] of the handle it returns. *)
Definition applyUpdate (updater : StoreUpdater) : Action :=
  publishQueue_applyUpdate updater ;; publishQueue_run.

Definition applyUpdate_dispose (updater : StoreUpdater) : Action :=
  publishQueue_revertUpdate updater ;; publishQueue_run.

(** [commitPayload(selector, payload)]: the normalizer is called without
    an [options] argument; what it throws reaches the caller, before
    anything is committed. *)
Definition commitPayload (selector : Selector) (payload : PayloadData)
  : Task :=
  fun w =>
    let w1 := emit (EvNormalize selector payload None) w in
    match normalizeRelayPayload X selector payload None with
    | Return relayPayload =>
        (Return tt,
         (publishQueue_commitPayload selector relayPayload None ;;
          publishQueue_run) w1)
    | Throw err => (Throw err, w1)
    end.

Definition lookup (selector : Selector) (w : World) : Snapshot * World :=
  (store_lookup X (store w) selector, emit (EvLookup selector) w).

(** *** sendQuery *)

Record QueryConfig := {
  query_cacheConfig : option CacheConfig;
  query_onCompleted : option (unit -> Task);
  query_onError : option (Error -> Task);
  query_onNext : option (RelayResponsePayload -> Task);
  query_operation : OperationSelector
}.

Record Query := {
  query_isDisposed : bool;
  query_config : QueryConfig
}.

Definition sendQuery (config : QueryConfig) (w : World) : Query * World :=
  ({| query_isDisposed := false; query_config := config |},
   RelayNetwork.request
     (op_node (query_operation config))
     (op_variables (query_operation config))
     (query_cacheConfig config) w).

Definition sendQuery_dispose (q : Query) : Query :=
  {| query_isDisposed := true; query_config := query_config q |}.

Definition sendQuery_then (q : Query) (payload : RelayResponsePayload)
  : Task :=
  if query_isDisposed q then returning skip
  else
    returning
      (publishQueue_commitPayload
         (op_fragment (query_operation (query_config q))) payload None) >>
    returning publishQueue_run >>
    callIf (query_onNext (query_config q)) payload >>
    callIf (query_onCompleted (query_config q)) tt.

Definition sendQuery_catch (q : Query) (error : Error) : Task :=
  if query_isDisposed q then returning skip
  else callIf (query_onError (query_config q)) error.

(** [promise.then(f).catch(g)]: [f] on fulfilment, and [g] on rejection
    and on what [f] throws.  The calls to the queue return; the callbacks
    of the application may throw. *)
Definition sendQuery_settle (q : Query)
    (settled : Settled RelayResponsePayload) : Action :=
  match settled with
  | Resolved payload =>
      outcome (catching (sendQuery_then q payload) (sendQuery_catch q))
  | Rejected error => outcome (sendQuery_catch q error)
  end.

(** The transport's promise settles: [RelayNetwork.request] resumes, and
    the promise it returned settles the environment's handlers. *)
Definition sendQuery_fetched (q : Query) (fetched : Settled QueryPayload)
  : Action :=
  fun w =>
    let '(settled, w') :=
      RelayNetwork.request_resume X
        (op_node (query_operation (query_config q)))
        (op_variables (query_operation (query_config q))) fetched w in
    sendQuery_settle q settled w'.

(** *** sendQuerySubscription *)

Definition sendQuerySubscription (config : QueryConfig) (w : World)
  : RelayNetwork.Subscription * World :=
  RelayNetwork.requestSubscription
    (op_node (query_operation config))
    (op_variables (query_operation config))
    (query_cacheConfig config)
    {| RelayNetwork.obs_onCompleted := query_onCompleted config;
       RelayNetwork.obs_onError := query_onError config;
       RelayNetwork.obs_onNext :=
         Some (fun payload =>
                 returning
                   (publishQueue_commitPayload
                      (op_fragment (query_operation config)) payload None) >>
                 returning publishQueue_run >>
                 callIf (query_onNext config) payload) |}
    w.

(** *** sendMutation *)

Record MutationArgs := {
  mutation_onCompleted : option (unit -> Task);
  mutation_onError : option (Error -> Task);
  mutation_operation : OperationSelector;
  mutation_optimisticUpdater : option StoreUpdater;
  mutation_updater : option SelectorStoreUpdater
}.

(** The closure shared by [dispose] and the two promise handlers:
    [isDisposed], and the parameter [optimisticUpdater], which [dispose]
    reassigns. *)
Record Mutation := {
  isDisposed : bool;
  optimisticUpdater : option StoreUpdater;
  mutation_args : MutationArgs
}.

Definition revertIfSet (u : option StoreUpdater) : Action :=
  match u with
  | Some updater => publishQueue_revertUpdate updater
  | None => skip
  end.

Definition sendMutation (args : MutationArgs) (w : World)
  : Mutation * World :=
  let w1 :=
    match mutation_optimisticUpdater args with
    | Some updater =>
        (publishQueue_applyUpdate updater ;; publishQueue_run) w
    | None => w
    end in
  ({| isDisposed := false;
      optimisticUpdater := mutation_optimisticUpdater args;
      mutation_args := args |},
   RelayNetwork.request
     (op_node (mutation_operation args))
     (op_variables (mutation_operation args))
     (Some {| force := true |}) w1).

Definition dispose (m : Mutation) (w : World) : Mutation * World :=
  ({| isDisposed := true; optimisticUpdater := None;
      mutation_args := mutation_args m |},
   match optimisticUpdater m with
   | Some updater =>
       (publishQueue_revertUpdate updater ;; publishQueue_run) w
   | None => w
   end).

Definition sendMutation_then (m : Mutation) (payload : RelayResponsePayload)
  : Task :=
  if isDisposed m then returning skip
  else
    returning (revertIfSet (optimisticUpdater m)) >>
    returning
      (publishQueue_commitPayload
         (op_fragment (mutation_operation (mutation_args m))) payload
         (mutation_updater (mutation_args m))) >>
    returning publishQueue_run >>
    callIf (mutation_onCompleted (mutation_args m)) tt.

Definition sendMutation_catch (m : Mutation) (error : Error) : Task :=
  if isDisposed m then returning skip
  else
    returning (revertIfSet (optimisticUpdater m)) >>
    returning publishQueue_run >>
    callIf (mutation_onError (mutation_args m)) error.

(** [promise.then(f).catch(g)], as in [sendQuery]. *)
Definition sendMutation_settle (m : Mutation)
    (settled : Settled RelayResponsePayload) : Action :=
  match settled with
  | Resolved payload =>
      outcome (catching (sendMutation_then m payload) (sendMutation_catch m))
  | Rejected error => outcome (sendMutation_catch m error)
  end.

Definition sendMutation_fetched (m : Mutation)
    (fetched : Settled QueryPayload) : Action :=
  fun w =>
    let '(settled, w') :=
      RelayNetwork.request_resume X
        (op_node (mutation_operation (mutation_args m)))
        (op_variables (mutation_operation (mutation_args m))) fetched w in
    sendMutation_settle m settled w'.

End Environment.
End RelayStaticEnvironment.

(** ** commitRelayStaticMutation *)

Section CommitMutation.
Context (X : Collaborators).

(** [configs] and [optimisticResponse] of the source's [MutationConfig]
    are not read by the function and are left out. *)
Record MutationConfig := {
  config_mutation : GraphQLTaggedNode;
  config_variables : Variables;
  config_onCompleted : option (option JSON -> Task);
  config_onError : option (Error -> Task);
  config_optimisticUpdater : option StoreUpdater;
  config_updater : option SelectorStoreUpdater
}.

Definition commitRelayStaticMutation (config : MutationConfig) (w : World)
  : RelayStaticEnvironment.Mutation * World :=
  let mutation := getOperation X (config_mutation config) in
  let operation := createOperationSelector X mutation (config_variables config) in
  RelayStaticEnvironment.sendMutation
    {| RelayStaticEnvironment.mutation_onError := config_onError config;
       RelayStaticEnvironment.mutation_operation := operation;
       RelayStaticEnvironment.mutation_optimisticUpdater :=
         config_optimisticUpdater config;
       RelayStaticEnvironment.mutation_updater := config_updater config;
       RelayStaticEnvironment.mutation_onCompleted :=
         Some (fun _ =>
                 match config_onCompleted config with
                 | Some onCompleted =>
                     fun w0 =>
                       let '(snapshot, w1) :=
                         RelayStaticEnvironment.lookup X
                           (op_fragment operation) w0 in
                       onCompleted (snapshot_data snapshot) w1
                 | None => returning skip
                 end) |}
    w.

End CommitMutation.

(** ** Vocabulary of the properties *)

(** What any other operation of the environment can do to the queue: every
    method and every handler of [RelayStaticEnvironment] is a sequence of
    these four calls. *)
Inductive QueueOp :=
| OpApplyUpdate (u : StoreUpdater)
| OpRevertUpdate (u : StoreUpdater)
| OpCommitPayload (selector : Selector) (payload : RelayResponsePayload)
                  (updater : option SelectorStoreUpdater)
| OpRun.

Definition perform (op : QueueOp) : Action :=
  match op with
  | OpApplyUpdate u => publishQueue_applyUpdate u
  | OpRevertUpdate u => publishQueue_revertUpdate u
  | OpCommitPayload selector payload updater =>
      publishQueue_commitPayload selector payload updater
  | OpRun => publishQueue_run
  end.

Definition performAll (ops : list QueueOp) : Action :=
  fun w => fold_left (fun w' op => perform op w') ops w.

(** The operation applies an updater with reference [r]. *)
Definition applies (r : nat) (op : QueueOp) : bool :=
  match op with
  | OpApplyUpdate u => Nat.eqb (updater_ref u) r
  | _ => false
  end.

(** The operation applies or reverts an updater with reference [r]. *)
Definition mentions (r : nat) (op : QueueOp) : bool :=
  match op with
  | OpApplyUpdate u | OpRevertUpdate u => Nat.eqb (updater_ref u) r
  | _ => false
  end.

(** The store shows what the queue last published and no commit waits for a
    [run()]: the state every method of the environment leaves behind. *)
Definition inSync (w : World) : Prop :=
  forallb RelayPublishQueue.isOptimistic
    (RelayPublishQueue.entries (publishQueue w)) = true /\
  store w = RelayPublishQueue.layered (publishQueue w).

Definition isCallback (e : Event) : bool :=
  match e with
  | EvOnNext _ _ | EvOnCompleted _ _ | EvOnError _ _ => true
  | _ => false
  end.

Definition isQueueCall (e : Event) : bool :=
  match e with
  | EvApplyUpdate _ | EvRevertUpdate _ | EvCommitPayload _ _ _ | EvRun => true
  | _ => false
  end.

Definition isOnError (e : Event) : bool :=
  match e with EvOnError _ _ => true | _ => false end.

Definition isOnCompleted (e : Event) : bool :=
  match e with EvOnCompleted _ _ => true | _ => false end.

Definition isLookup (e : Event) : bool :=
  match e with EvLookup _ => true | _ => false end.

(** What the application can observe of a world: the queue's content, the
    records the store shows and the callbacks that were invoked. *)
Definition observable (w : World)
  : RelayPublishQueue.t * RecordSource * list Event :=
  (publishQueue w, store w, List.filter isCallback (log w)).

(** The events of [f && f(x)] for an application callback. *)
Definition notified {A : Type} (f : option nat) (ev : nat -> A -> Event) (x : A)
  : list Event :=
  match f with
  | Some r => [ev r x]
  | None => []
  end.

Definition queryConfig (cacheConfig : option CacheConfig)
    (onCompleted onError onNext : option nat) (operation : OperationSelector)
  : RelayStaticEnvironment.QueryConfig :=
  {| RelayStaticEnvironment.query_cacheConfig := cacheConfig;
     RelayStaticEnvironment.query_onCompleted :=
       option_map observeCompleted onCompleted;
     RelayStaticEnvironment.query_onError := option_map observeError onError;
     RelayStaticEnvironment.query_onNext := option_map observeNext onNext;
     RelayStaticEnvironment.query_operation := operation |}.

Definition mutationArgs (onCompleted onError : option nat)
    (operation : OperationSelector)
    (optimisticUpdater : option StoreUpdater)
    (updater : option SelectorStoreUpdater)
  : RelayStaticEnvironment.MutationArgs :=
  {| RelayStaticEnvironment.mutation_onCompleted :=
       option_map observeCompleted onCompleted;
     RelayStaticEnvironment.mutation_onError :=
       option_map observeError onError;
     RelayStaticEnvironment.mutation_operation := operation;
     RelayStaticEnvironment.mutation_optimisticUpdater := optimisticUpdater;
     RelayStaticEnvironment.mutation_updater := updater |}.

Definition mutationConfig (mutation : GraphQLTaggedNode) (vars : Variables)
    (onCompleted onError : option nat)
    (optimisticUpdater : option StoreUpdater)
    (updater : option SelectorStoreUpdater) : MutationConfig :=
  {| config_mutation := mutation;
     config_variables := vars;
     config_onCompleted := option_map observeResponse onCompleted;
     config_onError := option_map observeError onError;
     config_optimisticUpdater := optimisticUpdater;
     config_updater := updater |}.

(** *** The life of one mutation *)

(** What can happen to a mutation after [sendMutation] returned: the caller
    disposes the handle, the promise of the transport settles, or another
    operation of the environment makes its queue calls and runs the queue. *)
Inductive MutationEvent :=
| Dispose
| Settle (settled : Settled RelayResponsePayload)
| Other (ops : list QueueOp).

Definition step (s : RelayStaticEnvironment.Mutation * World)
    (ev : MutationEvent) : RelayStaticEnvironment.Mutation * World :=
  match ev with
  | Dispose => RelayStaticEnvironment.dispose (fst s) (snd s)
  | Settle settled =>
      (fst s, RelayStaticEnvironment.sendMutation_settle (fst s) settled (snd s))
  | Other ops => (fst s, (performAll ops ;; publishQueue_run) (snd s))
  end.

Definition steps (h : list MutationEvent)
    (s : RelayStaticEnvironment.Mutation * World)
  : RelayStaticEnvironment.Mutation * World :=
  fold_left step h s.

Definition isTerminal (ev : MutationEvent) : bool :=
  match ev with
  | Dispose | Settle _ => true
  | Other _ => false
  end.

(** The other operations leave the updater with reference [r] alone. *)
Definition foreign (r : nat) (ev : MutationEvent) : bool :=
  match ev with
  | Other ops => forallb (fun op => negb (mentions r op)) ops
  | _ => true
  end.

(** The number of steps of [h] at which the entry with reference [r] leaves
    the queue. *)
Fixpoint removals (r : nat) (h : list MutationEvent)
    (s : RelayStaticEnvironment.Mutation * World) : nat :=
  match h with
  | [] => 0
  | ev :: h' =>
      (if RelayPublishQueue.queued r (publishQueue (snd s)) &&
          negb (RelayPublishQueue.queued r (publishQueue (snd (step s ev))))
       then 1 else 0) + removals r h' (step s ev)
  end.

(** The number of queued optimistic entries with reference [r]. *)
Definition occurrences (r : nat) (q : RelayPublishQueue.t) : nat :=
  length (List.filter (RelayPublishQueue.matches r) (RelayPublishQueue.entries q)).

Definition optimisticEntries (q : RelayPublishQueue.t)
  : list RelayPublishQueue.PendingEntry :=
  List.filter RelayPublishQueue.isOptimistic (RelayPublishQueue.entries q).

(** Two queues that publish the same confirmed records and whose optimistic
    entries differ by one entry with reference [r], queued in the first
    and not in the second. *)
Definition differByEntry (r : nat) (q1 q2 : RelayPublishQueue.t) : Prop :=
  RelayPublishQueue.rebase q1 = RelayPublishQueue.rebase q2 /\
  RelayPublishQueue.removeEntry r (optimisticEntries q1) = optimisticEntries q2 /\
  RelayPublishQueue.queued r q2 = false.

(** The mutation waits for its response: not disposed, its optimistic entry
    queued once. *)
Definition awaiting (args : RelayStaticEnvironment.MutationArgs)
    (U : StoreUpdater) (s : RelayStaticEnvironment.Mutation * World) : Prop :=
  RelayStaticEnvironment.mutation_args (fst s) = args /\
  RelayStaticEnvironment.isDisposed (fst s) = false /\
  RelayStaticEnvironment.optimisticUpdater (fst s) = Some U /\
  occurrences (updater_ref U) (publishQueue (snd s)) = 1 /\
  inSync (snd s).

(** The mutation went through a terminal transition: its optimistic entry
    is gone. *)
Definition finished (args : RelayStaticEnvironment.MutationArgs)
    (U : StoreUpdater) (s : RelayStaticEnvironment.Mutation * World) : Prop :=
  RelayStaticEnvironment.mutation_args (fst s) = args /\
  (RelayStaticEnvironment.optimisticUpdater (fst s) = Some U \/
   RelayStaticEnvironment.optimisticUpdater (fst s) = None) /\
  occurrences (updater_ref U) (publishQueue (snd s)) = 0 /\
  inSync (snd s).

(** *** Other callers of the environment *)

(** The public calls by which other parties change the store while an
    optimistic update is applied: [applyUpdate(u)], [dispose()] of the
    handle such a call returned, and [commitPayload(selector, payload)]. *)
Inductive EnvironmentOp :=
| CallApplyUpdate (u : StoreUpdater)
| CallDispose (u : StoreUpdater)
| CallCommitPayload (selector : Selector) (payload : PayloadData).

Definition call (X : Collaborators) (op : EnvironmentOp) : Action :=
  match op with
  | CallApplyUpdate u => RelayStaticEnvironment.applyUpdate u
  | CallDispose u => RelayStaticEnvironment.applyUpdate_dispose u
  | CallCommitPayload selector payload =>
      outcome (RelayStaticEnvironment.commitPayload X selector payload)
  end.

Definition callAll (X : Collaborators) (ops : list EnvironmentOp) : Action :=
  fun w => fold_left (fun w' op => call X op w') ops w.

(** The call applies an updater with reference [r]. *)
Definition reuses (r : nat) (op : EnvironmentOp) : bool :=
  match op with
  | CallApplyUpdate u => Nat.eqb (updater_ref u) r
  | _ => false
  end.

(** The events of the warning guarded by [errors && errors.length]. *)
Definition warned (operation : ConcreteBatch) (vars : Variables)
    (errs : option (list PayloadError)) : list Event :=
  match errs with
  | Some (e :: es) => [RelayNetwork.errorsWarning operation vars (e :: es)]
  | _ => []
  end.

Definition isNormalize (e : Event) : bool :=
  match e with EvNormalize _ _ _ => true | _ => false end.

(** The selector [RelayNetwork] normalizes a response against. *)
Definition rootSelector (X : Collaborators) (operation : ConcreteBatch)
    (vars : Variables) : Selector :=
  {| dataID := ROOT_ID X; node := query operation; variables := vars |}.

Definition strippedNulls : option NormalizationOptions :=
  Some {| handleStrippedNulls := true |}.

(** The callback, when given, returns whatever it is called with and in
    whatever world. *)
Definition returns {A : Type} (f : option (A -> Task)) : Prop :=
  match f with
  | Some g => forall x w, fst (g x w) = Return tt
  | None => True
  end.

(** What the promise of [request] settles with for a response with data:
    it resolves with what the normalizer returns and rejects with what the
    normalizer throws. *)
Definition requestSettled (X : Collaborators) (operation : ConcreteBatch)
    (vars : Variables) (d : PayloadData) : Settled RelayResponsePayload :=
  match normalizeRelayPayload X (rootSelector X operation vars) d strippedNulls with
  | Return relayPayload => Resolved relayPayload
  | Throw err => Rejected err
  end.

(** The events of the [revertUpdate] guarded by [if (optimisticUpdater)]. *)
Definition reverted (u : option StoreUpdater) : list Event :=
  match u with
  | Some updater => [EvRevertUpdate (updater_ref updater)]
  | None => []
  end.

(** *** A running example: liking a post *)

Module Likes.

Definition post : DataID := "post:1".

(** The record source in which the post has [n] likes. *)
Definition likes (n : Z) : RecordSource :=
  {[ post := {[ "likeCount" := VInt n ]} ]}.

Definition likeCount (records : RecordSource) : option Value :=
  match records !! post with
  | Some record => record !! "likeCount"
  | None => None
  end.

(** The optimistic updater [likeCount += 1]. *)
Definition increment : StoreUpdater :=
  {| updater_ref := 1;
     updater_writes := fun records =>
       match likeCount records with
       | Some (VInt n) => likes (n + 1)
       | _ => ∅
       end |}.

(** Another caller's optimistic updater: it marks the post as seen. *)
Definition markSeen : StoreUpdater :=
  {| updater_ref := 2;
     updater_writes := fun _ => {[ post := {[ "seen" := VBool true ]} ]} |}.

(** The server confirms 42 likes. *)
Definition confirmed : RelayResponsePayload :=
  {| fieldPayloads := []; source := likes 42 |}.

Definition likeMutation : OperationSelector :=
  {| op_fragment := {| dataID := "client:root"; node := "LikeMutation";
                       variables := ∅ |};
     op_node := {| name := "LikeMutation"; query := "LikeMutation" |};
     op_root := {| dataID := "client:root"; node := "LikeMutation";
                   variables := ∅ |};
     op_variables := ∅ |}.

Definition networkError : Error :=
  {| error_name := "TypeError"; error_format := "Network request failed";
     error_args := []; error_source := None |}.

(** The world before the mutation: ten likes, nothing queued. *)
Definition before : World :=
  {| publishQueue :=
       {| RelayPublishQueue.base := likes 10;
          RelayPublishQueue.entries := [] |};
     store := likes 10;
     log := [] |}.

(** Stand-ins for the collaborators: the normalizer reads the number
    under ["likeCount"] of the response. *)
Definition readLikes (d : PayloadData) : RecordSource :=
  match d with
  | JObject [(_, JNumber n)] => likes n
  | _ => ∅
  end.

Definition malformed : Error :=
  {| error_name := "Error"; error_format := "malformed payload";
     error_args := []; error_source := None |}.

Definition collaborators : Collaborators :=
  {| ROOT_ID := "client:root";
     normalizeRelayPayload := fun _ d _ =>
       match d with
       | JObject _ =>
           Return {| fieldPayloads := []; source := readLikes d |}
       | _ => Throw malformed
       end;
     store_lookup := fun records _ =>
       {| snapshot_data :=
            match likeCount records with
            | Some (VInt n) => Some (JNumber n)
            | _ => None
            end;
          snapshot_seenRecords := [post] |};
     getOperation := fun _ => op_node likeMutation;
     createOperationSelector := fun _ _ => likeMutation |}.

End Likes.

(** ** RelayIR and RelayConnectionTransform *)

(** The part of graphql-js the transform reads: the classes of types it
    tests with [instanceof], [getFields()], [ofType] and the string a type
    prints as.  A field of an object type is represented by its [type], the
    only property read; a schema's types refer to each other by name and
    may be cyclic, here they are unfolded as deep as the code looks. *)
Module GraphQL.

#[warnings="-register-all"]
Inductive GraphQLType :=
| GraphQLScalarType (name : string)
| GraphQLObjectType (name : string) (fields : gmap string GraphQLType)
| GraphQLInterfaceType (name : string) (fields : gmap string GraphQLType)
| GraphQLUnionType (name : string)
| GraphQLEnumType (name : string)
| GraphQLInputObjectType (name : string) (fields : gmap string GraphQLType)
| GraphQLList (ofType : GraphQLType)
| GraphQLNonNull (ofType : GraphQLType).

(** [String(type)] *)
Fixpoint toString (t : GraphQLType) : string :=
  match t with
  | GraphQLScalarType name | GraphQLObjectType name _
  | GraphQLInterfaceType name _ | GraphQLUnionType name
  | GraphQLEnumType name | GraphQLInputObjectType name _ => name
  | GraphQLList ofType => "[" +:+ toString ofType +:+ "]"
  | GraphQLNonNull ofType => toString ofType +:+ "!"
  end.

Definition notAFunction : Error :=
  {| error_name := "TypeError"; error_format := "getFields is not a function";
     error_args := []; error_source := None |}.

(** [type.getFields()]: a method of object, interface and input object
    types; calling it on another value is a [TypeError]. *)
Definition getFields (t : GraphQLType) : Completion (gmap string GraphQLType) :=
  match t with
  | GraphQLObjectType _ fields | GraphQLInterfaceType _ fields
  | GraphQLInputObjectType _ fields => Return fields
  | _ => Throw notAFunction
  end.

End GraphQL.

(** The node types of [RelayIR] the transform works on. *)
Module RelayIR.
Import GraphQL.

Abbreviation Metadata := (option (gmap string JSON)).

#[warnings="-register-all"]
Inductive ArgumentValue :=
| ListValue (items : list ArgumentValue) (metadata : Metadata)
| Literal (metadata : Metadata) (value : JSON)
| ObjectValue (fields : list ObjectFieldValue) (metadata : Metadata)
| VariableValue (metadata : Metadata) (variableName : string)
with ObjectFieldValue :=
| MkObjectFieldValue (metadata : Metadata) (name : string)
                     (value : ArgumentValue).

Record Argument := {
  arg_metadata : Metadata;
  arg_name : string;
  arg_type : option GraphQLType;
  arg_value : ArgumentValue
}.

Record Directive := {
  directive_args : list Argument;
  directive_metadata : Metadata;
  directive_name : string
}.

#[warnings="-register-all"]
Inductive Selection :=
| ConditionSel (condition : ArgumentValue) (metadata : Metadata)
               (passingValue : bool) (selections : list Selection)
| FragmentSpreadSel (args : list Argument) (directives : list Directive)
                    (metadata : Metadata) (name : string)
| InlineFragmentSel (directives : list Directive) (metadata : Metadata)
                    (selections : list Selection) (typeCondition : GraphQLType)
| LinkedFieldSel (alias : option string) (args : list Argument)
                 (directives : list Directive) (handles : option (list string))
                 (metadata : Metadata) (name : string)
                 (selections : list Selection) (type : GraphQLType)
| ScalarFieldSel (alias : option string) (args : list Argument)
                 (directives : list Directive) (handles : option (list string))
                 (metadata : Metadata) (name : string) (type : GraphQLType).

Record LinkedField := {
  field_alias : option string;
  field_args : list Argument;
  field_directives : list Directive;
  field_handles : option (list string);
  field_metadata : Metadata;
  field_name : string;
  field_selections : list Selection;
  field_type : GraphQLType
}.

Record InlineFragment := {
  inline_directives : list Directive;
  inline_metadata : Metadata;
  inline_selections : list Selection;
  inline_typeCondition : GraphQLType
}.

Definition ofInlineFragment (f : InlineFragment) : Selection :=
  InlineFragmentSel (inline_directives f) (inline_metadata f)
    (inline_selections f) (inline_typeCondition f).

Definition ofLinkedField (f : LinkedField) : Selection :=
  LinkedFieldSel (field_alias f) (field_args f) (field_directives f)
    (field_handles f) (field_metadata f) (field_name f) (field_selections f)
    (field_type f).

Inductive ArgumentDefinition :=
| LocalArgumentDefinition (defaultValue : JSON) (metadata : Metadata)
                          (name : string) (type : GraphQLType)
| RootArgumentDefinition (metadata : Metadata) (name : string)
                         (type : GraphQLType).

Record Fragment := {
  fragment_argumentDefinitions : list ArgumentDefinition;
  fragment_directives : list Directive;
  fragment_metadata : Metadata;
  fragment_name : string;
  fragment_selections : list Selection;
  fragment_type : GraphQLType
}.

Record Root := {
  root_argumentDefinitions : list ArgumentDefinition;
  root_directives : list Directive;
  root_metadata : Metadata;
  root_name : string;
  root_operation : string;
  root_selections : list Selection;
  root_type : GraphQLType
}.

(** [Fragment | Root], the nodes a document parses to. *)
Inductive DefinitionNode :=
| FragmentNode (fragment : Fragment)
| RootNode (root : Root).

Definition definitionName (n : DefinitionNode) : string :=
  match n with
  | FragmentNode f => fragment_name f
  | RootNode r => root_name r
  end.

End RelayIR.

Module RelayConnectionTransform.
Import GraphQL RelayIR.

(** The state the transformer threads through a traversal. *)
Record Options := {
  opt_definitionName : option string;
  opt_generateRequisiteFields : bool
}.

(** What the module requires and is not at hand enters as parameters: the
    constants of [RelayConnectionConstants] and
    [RelayConnectionInterface], [assertCompositeType] of graphql,
    [assertTypeWithFields] and [getNullableType] of [RelaySchemaUtils], and
    [getRelayLiteralArgumentValues] (the object it returns is a map from
    argument names to literal values). *)
Record Imports := {
  CONNECTION : string;
  FIRST : string;
  HANDLE : string;
  LAST : string;
  CURSOR : string;
  EDGES : string;
  END_CURSOR : string;
  HAS_NEXT_PAGE : string;
  HAS_PREV_PAGE : string;
  NODE : string;
  PAGE_INFO : string;
  START_CURSOR : string;
  assertCompositeType : GraphQLType -> Completion GraphQLType;
  assertTypeWithFields : GraphQLType -> Completion GraphQLType;
  getNullableType : GraphQLType -> GraphQLType;
  getRelayLiteralArgumentValues : list Argument -> gmap string JSON
}.

(** [this] inside a visitor: [this.traverse] on a linked field and on a
    definition, and [this.getContext().parse(text).nodes]. *)
Record Transformer := {
  traverse : LinkedField -> Options -> LinkedField;
  traverseDefinition : DefinitionNode -> Options -> option DefinitionNode;
  parse : string -> list DefinitionNode
}.

#[export] Instance Completion_bind : MBind Completion :=
  fun A B f c =>
    match c with
    | Return a => f a
    | Throw e => Throw e
    end.

(** [invariant(condition, format, ...args)] *)
Definition invariant (condition : bool) (format : string) (args : list string)
  : Completion unit :=
  if condition then Return tt
  else Throw {| error_name := "Invariant Violation"; error_format := format;
                error_args := args; error_source := None |}.

(** [array.forEach(f)] with an [f] that may throw. *)
Fixpoint forEach {A : Type} (f : A -> Completion unit) (l : list A)
  : Completion unit :=
  match l with
  | [] => Return tt
  | x :: l' => _ ← f x; forEach f l'
  end.

Section Transform.
Context (I : Imports).

Definition selectionArgumentsFormat : string :=
  "RelayConnectionTransform: Expected field `%s: %s` to have a %s or %s " +:+
  "argument in document `%s`.".

Definition selectionEdgesFormat : string :=
  "RelayConnectionTransform: Expected field `%s: %s` to have a %s " +:+
  "selection in document `%s`.".

Definition isEdgesField (selection : Selection) : bool :=
  match selection with
  | LinkedFieldSel _ _ _ _ _ name _ _ => String.eqb name (EDGES I)
  | _ => false
  end.

Definition isLimitArgument (arg : Argument) : bool :=
  String.eqb (arg_name arg) (FIRST I) || String.eqb (arg_name arg) (LAST I).

Definition validateConnectionSelection (definitionName : string)
    (field : LinkedField) : Completion unit :=
  _ ← invariant (existsb isLimitArgument (field_args field))
        selectionArgumentsFormat
        [field_name field; toString (field_type field); FIRST I; LAST I;
         definitionName];
  invariant (existsb isEdgesField (field_selections field))
    selectionEdgesFormat
    [field_name field; toString (field_type field); EDGES I; definitionName].

Definition typeEdgesFormat : string :=
  "RelayConnectionTransform: Expected type `%s` to have an %s field in " +:+
  "document `%s`.".

Definition edgesListFormat : string :=
  "RelayConnectionTransform: Expected `%s` field on type `%s` to be a " +:+
  "list type in document `%s`.".

Definition edgesObjectsFormat : string :=
  "RelayConnectionTransform: Expected %s field on type `%s` to be a list " +:+
  "of objects in document `%s`.".

Definition edgeNodeFormat : string :=
  "RelayConnectionTransform: Expected type `%s` to have an %s.%s field" +:+
  "for which the type is an interface, object, or union in document `%s`.".

Definition edgeCursorFormat : string :=
  "RelayConnectionTransform: Expected type `%s` to have an " +:+
  "%s.%s field for which the type is an scalar in document `%s`.".

Definition pageInfoFormat : string :=
  "RelayConnectionTransform: Expected type `%s` to have a %s field for " +:+
  "which the type is an object in document `%s`.".

Definition pageInfoFieldFormat : string :=
  "RelayConnectionTransform: Expected type `%s` to have an " +:+
  "%s field for which the type is an scalar in document `%s`.".

Definition isList (t : GraphQLType) : bool :=
  match t with GraphQLList _ => true | _ => false end.

Definition isObject (t : GraphQLType) : bool :=
  match t with GraphQLObjectType _ _ => true | _ => false end.

Definition isScalar (t : GraphQLType) : bool :=
  match t with GraphQLScalarType _ => true | _ => false end.

(** [t instanceof GraphQLInterfaceType || t instanceof GraphQLUnionType ||
    t instanceof GraphQLObjectType] *)
Definition isInterfaceUnionOrObject (t : GraphQLType) : bool :=
  match t with
  | GraphQLInterfaceType _ _ | GraphQLUnionType _ | GraphQLObjectType _ _ => true
  | _ => false
  end.

(** A field looked up in a field map is truthy when it is there. *)
Definition defined (field : option GraphQLType) : bool :=
  match field with
  | Some _ => true
  | None => false
  end.

(** [!field || !(test(field.type))] *)
Definition lacks (test : GraphQLType -> bool) (field : option GraphQLType)
  : bool :=
  match field with
  | Some type => negb (test type)
  | None => true
  end.

Definition validateConnectionType (definitionName : string)
    (type : GraphQLType) : Completion unit :=
  typeWithFields ← assertTypeWithFields I type;
  typeFields ← getFields typeWithFields;
  let edges := typeFields !! EDGES I in
  _ ← invariant (defined edges) typeEdgesFormat
        [toString type; EDGES I; definitionName];
  match edges with
  | None => Return tt
  | Some edges_type =>
      let edgesType := getNullableType I edges_type in
      _ ← invariant (isList edgesType) edgesListFormat
            [EDGES I; toString type; definitionName];
      match edgesType with
      | GraphQLList ofType =>
          let edgeType := getNullableType I ofType in
          _ ← invariant (isObject edgeType) edgesObjectsFormat
                [EDGES I; toString type; definitionName];
          edgeFields ← getFields edgeType;
          let node := edgeFields !! NODE I in
          _ ← (if lacks isInterfaceUnionOrObject node
               then invariant false edgeNodeFormat
                      [toString type; EDGES I; NODE I; definitionName]
               else Return tt);
          let cursor := edgeFields !! CURSOR I in
          _ ← (if lacks isScalar cursor
               then invariant false edgeCursorFormat
                      [toString type; EDGES I; CURSOR I; definitionName]
               else Return tt);
          let pageInfo := typeFields !! PAGE_INFO I in
          _ ← (if lacks isObject pageInfo
               then invariant false pageInfoFormat
                      [toString type; PAGE_INFO I; definitionName]
               else Return tt);
          match pageInfo with
          | None => Return tt
          | Some pageInfo_type =>
              pageInfoType ← assertTypeWithFields I pageInfo_type;
              forEach
                (fun fieldName =>
                   pageInfoFields ← getFields pageInfoType;
                   let pageInfoField := pageInfoFields !! fieldName in
                   if lacks isScalar pageInfoField
                   then invariant false pageInfoFieldFormat
                          [toString pageInfo_type; fieldName; definitionName]
                   else Return tt)
                [END_CURSOR I; HAS_NEXT_PAGE I; HAS_PREV_PAGE I; START_CURSOR I]
          end
      | _ => Return tt
      end
  end.

Definition quote : string := String (Ascii.ascii_of_nat 34) EmptyString.

(** The document handed to [context.parse]. *)
Definition connectionFragmentText (compositeType : GraphQLType) : string :=
  String.concat newline
    [""%string;
     "    fragment ConnectionFragment on " +:+ toString compositeType +:+ " {";
     "      " +:+ EDGES I +:+ " {";
     "        " +:+ CURSOR I;
     "        " +:+ NODE I +:+ " {";
     "          __typename # rely on GenerateRequisiteFieldTransform to add " +:+
       quote +:+ "id" +:+ quote;
     "        }";
     "      }";
     "      " +:+ PAGE_INFO I +:+ " {";
     "        " +:+ END_CURSOR I;
     "        " +:+ HAS_NEXT_PAGE I;
     "        " +:+ HAS_PREV_PAGE I;
     "        " +:+ START_CURSOR I;
     "      }";
     "    }";
     "  "].

Definition connectionFragmentFormat : string :=
  "RelayConnectionTransform: Expected a connection fragment.".

(** [fragment && fragment.kind === 'Fragment'], for [fragment = nodes[0]]. *)
Definition isFragment (node : option DefinitionNode) : bool :=
  match node with
  | Some (FragmentNode _) => true
  | _ => false
  end.

(** [fragment.selections], read once the test above has passed. *)
Definition selectionsOf (node : option DefinitionNode) : list Selection :=
  match node with
  | Some (FragmentNode fragment) => fragment_selections fragment
  | Some (RootNode root) => root_selections root
  | None => []
  end.

Definition generateConnectionFragment (this : Transformer)
    (type : GraphQLType) : Completion InlineFragment :=
  compositeType ← assertCompositeType I type;
  let nodes := parse this (connectionFragmentText compositeType) in
  let fragment := head nodes in
  _ ← invariant (isFragment fragment) connectionFragmentFormat [];
  Return {| inline_directives := [];
            inline_metadata := None;
            inline_selections := selectionsOf fragment;
            inline_typeCondition := compositeType |}.

Definition definitionNameFormat : string :=
  "RelayConnectionTransform: Transform error, expected a name to have " +:+
  "been set by the parent operation or fragment definition.".

Definition handleFormat : string :=
  "RelayConnectionTransform: Expected the %s argument to @%s to " +:+
  "be a string literal or not specified.".

Definition isConnection (directive : Directive) : bool :=
  String.eqb (directive_name directive) (CONNECTION I).

(** A [?string] is truthy when it is a string other than the empty one. *)
Definition truthy (s : option string) : bool :=
  match s with
  | Some s' => negb (String.eqb s' "")
  | None => false
  end.

(** [typeof handle === 'string' || handle === undefined] *)
Definition isStringOrUndefined (handle : option JSON) : bool :=
  match handle with
  | None | Some (JString _) => true
  | Some _ => false
  end.

(** [handle || CONNECTION], for a handle that passed the test above. *)
Definition handleOrDefault (handle : option JSON) : string :=
  match handle with
  | Some (JString s) => if String.eqb s "" then CONNECTION I else s
  | _ => CONNECTION I
  end.

Definition withSelections (field : LinkedField) (selections : list Selection)
  : LinkedField :=
  {| field_alias := field_alias field;
     field_args := field_args field;
     field_directives := field_directives field;
     field_handles := field_handles field;
     field_metadata := field_metadata field;
     field_name := field_name field;
     field_selections := selections;
     field_type := field_type field |}.

Definition visitLinkedField (this : Transformer) (field : LinkedField)
    (options : Options) : Completion LinkedField :=
  let transformedField := traverse this field options in
  match List.find isConnection (field_directives field) with
  | None => Return transformedField
  | Some connectionDirective =>
      let definitionName := opt_definitionName options in
      _ ← invariant (truthy definitionName) definitionNameFormat [];
      let definitionName := default ""%string definitionName in
      _ ← validateConnectionSelection definitionName transformedField;
      _ ← validateConnectionType definitionName (field_type transformedField);
      let handle :=
        getRelayLiteralArgumentValues I (directive_args connectionDirective)
          !! "handle"%string in
      _ ← invariant (isStringOrUndefined handle) handleFormat
            [HANDLE I; CONNECTION I];
      let handle := handleOrDefault handle in
      transformedField ←
        (if opt_generateRequisiteFields options
         then
           fragment ← generateConnectionFragment this
                        (field_type transformedField);
           Return (withSelections transformedField
                     (field_selections transformedField ++
                      [ofInlineFragment fragment])%list)
         else Return transformedField);
      Return
        {| field_alias := field_alias transformedField;
           field_args := field_args transformedField;
           field_directives :=
             List.filter (fun directive => negb (isConnection directive))
               (field_directives transformedField);
           field_handles :=
             Some match field_handles transformedField with
                  | Some handles => (handles ++ [handle])%list
                  | None => [handle]
                  end;
           field_metadata := field_metadata transformedField;
           field_name := field_name transformedField;
           field_selections := field_selections transformedField;
           field_type := field_type transformedField |}
  end.

Definition visitFragmentOrRoot (this : Transformer) (node : DefinitionNode)
    (options : Options) : option DefinitionNode :=
  traverseDefinition this node
    {| opt_definitionName := Some (definitionName node);
       opt_generateRequisiteFields := opt_generateRequisiteFields options |}.

End Transform.
End RelayConnectionTransform.

(** *** A running example: the friends of a user *)

Module Friends.
Import GraphQL RelayIR RelayConnectionTransform.

(** Stand-ins for the imports, with the names Relay uses; the schema
    helpers accept object and interface types, respectively strip one
    non-null wrapper; literal arguments are collected by name. *)
Definition literals (args : list Argument) : gmap string JSON :=
  fold_right
    (fun arg values =>
       match arg_value arg with
       | Literal _ value => <[arg_name arg := value]> values
       | _ => values
       end)
    ∅ args.

Definition typeError (t : GraphQLType) : Error :=
  {| error_name := "Invariant Violation"; error_format := "unexpected type %s";
     error_args := [toString t]; error_source := None |}.

Definition imports : Imports :=
  {| CONNECTION := "connection"; FIRST := "first"; HANDLE := "handle";
     LAST := "last"; CURSOR := "cursor"; EDGES := "edges";
     END_CURSOR := "endCursor"; HAS_NEXT_PAGE := "hasNextPage";
     HAS_PREV_PAGE := "hasPreviousPage"; NODE := "node";
     PAGE_INFO := "pageInfo"; START_CURSOR := "startCursor";
     assertCompositeType := fun t =>
       match t with
       | GraphQLObjectType _ _ | GraphQLInterfaceType _ _
       | GraphQLUnionType _ => Return t
       | _ => Throw (typeError t)
       end;
     assertTypeWithFields := fun t =>
       match t with
       | GraphQLObjectType _ _ | GraphQLInterfaceType _ _ => Return t
       | _ => Throw (typeError t)
       end;
     getNullableType := fun t =>
       match t with
       | GraphQLNonNull ofType => ofType
       | _ => t
       end;
     getRelayLiteralArgumentValues := literals |}.

Definition String_ : GraphQLType := GraphQLScalarType "String".
Definition Boolean_ : GraphQLType := GraphQLScalarType "Boolean".
Definition User : GraphQLType := GraphQLObjectType "User" {[ "name" := String_ ]}.

Definition PageInfo : GraphQLType :=
  GraphQLObjectType "PageInfo"
    {[ "endCursor" := String_; "hasNextPage" := Boolean_;
       "hasPreviousPage" := Boolean_; "startCursor" := String_ ]}.

Definition FriendsEdge : GraphQLType :=
  GraphQLObjectType "FriendsEdge" {[ "node" := User; "cursor" := String_ ]}.

Definition FriendsConnection : GraphQLType :=
  GraphQLObjectType "FriendsConnection"
    {[ "edges" := GraphQLNonNull (GraphQLList FriendsEdge);
       "pageInfo" := PageInfo ]}.

(** The same connection with [pageInfo: PageInfo!]. *)
Definition StrictConnection : GraphQLType :=
  GraphQLObjectType "StrictConnection"
    {[ "edges" := GraphQLList FriendsEdge;
       "pageInfo" := GraphQLNonNull PageInfo ]}.

Definition literal (name : string) (value : JSON) : Argument :=
  {| arg_metadata := None; arg_name := name; arg_type := None;
     arg_value := Literal None value |}.

Definition directive (name : string) (args : list Argument) : Directive :=
  {| directive_args := args; directive_metadata := None;
     directive_name := name |}.

Definition edgesSelection : Selection :=
  LinkedFieldSel None [] [] None None "edges"
    [ScalarFieldSel None [] [] None None "cursor" String_] FriendsEdge.

(** [friends(first: 10) @include(...) @connection(handle: h) { edges {...} }] *)
Definition friends (connectionArgs : list Argument) : LinkedField :=
  {| field_alias := None;
     field_args := [literal "first" (JNumber 10)];
     field_directives :=
       [directive "include" []; directive "connection" connectionArgs];
     field_handles := None;
     field_metadata := None;
     field_name := "friends";
     field_selections := [edgesSelection];
     field_type := FriendsConnection |}.

(** The same field without the directive. *)
Definition plainFriends : LinkedField :=
  {| field_alias := None;
     field_args := [literal "first" (JNumber 10)];
     field_directives := [directive "include" []];
     field_handles := None;
     field_metadata := None;
     field_name := "friends";
     field_selections := [edgesSelection];
     field_type := FriendsConnection |}.

Definition connectionFragment : Fragment :=
  {| fragment_argumentDefinitions := [];
     fragment_directives := [];
     fragment_metadata := None;
     fragment_name := "ConnectionFragment";
     fragment_selections := [edgesSelection];
     fragment_type := FriendsConnection |}.

(** A transformer whose traversal leaves nodes as they are. *)
Definition transformer : Transformer :=
  {| traverse := fun field _ => field;
     traverseDefinition := fun node _ => Some node;
     parse := fun _ => [FragmentNode connectionFragment] |}.

Definition inQuery (generate : bool) : Options :=
  {| opt_definitionName := Some "FriendsQuery";
     opt_generateRequisiteFields := generate |}.

End Friends.

(** *** Further vocabulary *)

(** The events of the [applyUpdate] and [run()] guarded by
    [if (optimisticUpdater)] at the start of [sendMutation]. *)
Definition applied (u : option StoreUpdater) : list Event :=
  match u with
  | Some updater => [EvApplyUpdate (updater_ref updater); EvRun]
  | None => []
  end.

(** The events of the [revertUpdate] and [run()] guarded by
    [if (optimisticUpdater)] in [dispose]. *)
Definition rolledBack (u : option StoreUpdater) : list Event :=
  match u with
  | Some updater => [EvRevertUpdate (updater_ref updater); EvRun]
  | None => []
  end.

Definition isWarning (e : Event) : bool :=
  match e with EvWarning _ _ _ _ => true | _ => false end.

(** The events logged since the log had the length of [before]. *)
Definition since (before after : World) : list Event :=
  skipn (length (log before)) (log after).

(** The field [visitLinkedField] returns for a field with the directive:
    the traversed field with the given selections, without its connection
    directives and with one more handle. *)
Definition rebuilt (I : RelayConnectionTransform.Imports)
    (transformed : RelayIR.LinkedField)
    (selections : list RelayIR.Selection) (handle : string)
  : RelayIR.LinkedField :=
  {| RelayIR.field_alias := RelayIR.field_alias transformed;
     RelayIR.field_args := RelayIR.field_args transformed;
     RelayIR.field_directives :=
       List.filter
         (fun directive =>
            negb (RelayConnectionTransform.isConnection I directive))
         (RelayIR.field_directives transformed);
     RelayIR.field_handles :=
       Some (default [] (RelayIR.field_handles transformed) ++ [handle])%list;
     RelayIR.field_metadata := RelayIR.field_metadata transformed;
     RelayIR.field_name := RelayIR.field_name transformed;
     RelayIR.field_selections := selections;
     RelayIR.field_type := RelayIR.field_type transformed |}.

(** The literal value of the directive's [handle] argument. *)
Definition handleLiteral (I : RelayConnectionTransform.Imports)
    (directive : RelayIR.Directive) : option JSON :=
  RelayConnectionTransform.getRelayLiteralArgumentValues I
    (RelayIR.directive_args directive) !! "handle".

Local Close Scope string_scope.

(** ** Properties *)

(** *** The publish queue *)

Module QueueFacts.
Import RelayPublishQueue.

Lemma removeEntry_absent r es :
  existsb (matches r) es = false -> removeEntry r es = es.
Proof.
  induction es as [|e es IH]; simpl; [reflexivity|].
  destruct (matches r e); simpl; [discriminate|].
  intros H. rewrite IH; auto.
Qed.

Lemma removeEntry_snoc_other r es x :
  matches r x = false -> removeEntry r (es ++ [x]) = removeEntry r es ++ [x].
Proof.
  intros Hx. induction es as [|e es IH]; simpl.
  - rewrite Hx. reflexivity.
  - destruct (matches r e); [reflexivity|]. rewrite IH. reflexivity.
Qed.

Lemma removeEntry_snoc_fresh r es u :
  existsb (matches r) es = false -> updater_ref u = r ->
  removeEntry r (es ++ [Optimistic u]) = es.
Proof.
  intros Hes Hu. induction es as [|e es IH]; simpl in *.
  - rewrite Hu, Nat.eqb_refl. reflexivity.
  - destruct (matches r e); simpl in *; [discriminate|].
    rewrite IH; auto.
Qed.

Lemma matches_two r r' e :
  matches r e = true -> matches r' e = true -> r = r'.
Proof.
  destruct e as [? ? ?|u]; simpl; [discriminate|].
  intros H1 H2. apply Nat.eqb_eq in H1, H2. congruence.
Qed.

Lemma removeEntry_comm r r' es :
  removeEntry r (removeEntry r' es) = removeEntry r' (removeEntry r es).
Proof.
  induction es as [|e es IH]; simpl; [reflexivity|].
  destruct (matches r' e) eqn:H', (matches r e) eqn:H; simpl;
    rewrite ?H, ?H'; try reflexivity.
  - rewrite (matches_two _ _ _ H H'). reflexivity.
  - rewrite IH. reflexivity.
Qed.

Lemma existsb_removeEntry r r' es :
  existsb (matches r) es = false ->
  existsb (matches r) (removeEntry r' es) = false.
Proof.
  induction es as [|e es IH]; simpl; [reflexivity|].
  intros H. apply orb_false_iff in H as [He Hes].
  destruct (matches r' e); simpl; [assumption|].
  rewrite He. simpl. auto.
Qed.

Lemma matches_isOptimistic r e : matches r e = true -> isOptimistic e = true.
Proof. destruct e; simpl; [discriminate|reflexivity]. Qed.

Lemma filter_removeEntry r es :
  List.filter isOptimistic (removeEntry r es) =
  removeEntry r (List.filter isOptimistic es).
Proof.
  induction es as [|e es IH]; simpl; [reflexivity|].
  destruct (matches r e) eqn:Hm.
  - rewrite (matches_isOptimistic _ _ Hm). simpl. rewrite Hm. reflexivity.
  - simpl. destruct (isOptimistic e) eqn:Ho; simpl; rewrite ?Hm, IH; reflexivity.
Qed.

Lemma existsb_filter_isOptimistic r es :
  existsb (matches r) (List.filter isOptimistic es) = existsb (matches r) es.
Proof.
  induction es as [|e es IH]; simpl; [reflexivity|].
  destruct (isOptimistic e) eqn:Ho; simpl; rewrite IH; [reflexivity|].
  destruct (matches r e) eqn:Hm; [|reflexivity].
  rewrite (matches_isOptimistic _ _ Hm) in Ho. discriminate.
Qed.

Lemma applyCommit_removeEntry r es b :
  fold_left applyCommit (removeEntry r es) b = fold_left applyCommit es b.
Proof.
  revert b. induction es as [|e es IH]; intros b; simpl; [reflexivity|].
  destruct (matches r e) eqn:Hm; simpl; [|apply IH].
  destruct e; simpl in *; [discriminate|reflexivity].
Qed.

Lemma applyCommit_optimistic es b :
  forallb isOptimistic es = true -> fold_left applyCommit es b = b.
Proof.
  revert b. induction es as [|e es IH]; intros b; simpl; [reflexivity|].
  intros H. apply andb_true_iff in H as [He Hes].
  destruct e; simpl in *; [discriminate|]. auto.
Qed.

Lemma applyOptimistic_filter es b :
  fold_left applyOptimistic (List.filter isOptimistic es) b =
  fold_left applyOptimistic es b.
Proof.
  revert b. induction es as [|e es IH]; intros b; simpl; [reflexivity|].
  destruct e; simpl; apply IH.
Qed.

Lemma forallb_filter_isOptimistic es :
  forallb isOptimistic (List.filter isOptimistic es) = true.
Proof.
  induction es as [|e es IH]; simpl; [reflexivity|].
  destruct (isOptimistic e) eqn:H; simpl; rewrite ?H; auto.
Qed.

Lemma filter_all_optimistic es :
  forallb isOptimistic es = true -> List.filter isOptimistic es = es.
Proof.
  induction es as [|e es IH]; simpl; [reflexivity|].
  intros H. apply andb_true_iff in H as [He Hes].
  rewrite He, IH; auto.
Qed.

(** Running a queue that has nothing to flush changes nothing. *)
Lemma run_settled q :
  forallb isOptimistic (entries q) = true -> run q = (q, layered q).
Proof.
  intros H. unfold run, rebase.
  rewrite applyCommit_optimistic, filter_all_optimistic by assumption.
  destruct q; reflexivity.
Qed.

Lemma layered_run q : layered (fst (run q)) = layered q.
Proof.
  unfold run, layered, rebase; simpl.
  rewrite applyCommit_optimistic by apply forallb_filter_isOptimistic.
  apply applyOptimistic_filter.
Qed.

Lemma revertUpdate_absent u q :
  queued (updater_ref u) q = false -> revertUpdate u q = q.
Proof.
  intros H. unfold revertUpdate. rewrite removeEntry_absent by exact H.
  destruct q; reflexivity.
Qed.

End QueueFacts.

(** *** Queue calls made through the world *)

Module WorldFacts.
Import RelayPublishQueue QueueFacts.

Lemma rebase_snoc q e :
  fold_left applyCommit (entries q ++ [e]) (base q) = applyCommit (rebase q) e.
Proof. unfold rebase. rewrite fold_left_app. reflexivity. Qed.

Lemma filter_snoc (es : list PendingEntry) e :
  List.filter isOptimistic (es ++ [e]) =
  List.filter isOptimistic es ++ (if isOptimistic e then [e] else []).
Proof. rewrite List.filter_app. reflexivity. Qed.

Lemma differByEntry_perform r op w1 w2 :
  differByEntry r (publishQueue w1) (publishQueue w2) ->
  applies r op = false ->
  differByEntry r (publishQueue (perform op w1)) (publishQueue (perform op w2)).
Proof.
  intros (Hb & He & Hq) Hop.
  unfold differByEntry, optimisticEntries, queued in *.
  destruct op as [u|u|sel payload upd|]; simpl in *;
    unfold rebase in *; simpl.
  - rewrite !fold_left_app; simpl. rewrite !filter_snoc; simpl.
    rewrite removeEntry_snoc_other by (simpl; exact Hop).
    rewrite He, existsb_app, Hq; simpl. rewrite Hop. auto.
  - rewrite !applyCommit_removeEntry, !filter_removeEntry.
    rewrite removeEntry_comm, He.
    auto using existsb_removeEntry.
  - rewrite !fold_left_app; simpl. rewrite !filter_snoc; simpl.
    rewrite !app_nil_r, existsb_app, Hq, Hb. auto.
  - rewrite !(applyCommit_optimistic (List.filter isOptimistic _))
      by apply forallb_filter_isOptimistic.
    rewrite !(filter_all_optimistic (List.filter isOptimistic _))
      by apply forallb_filter_isOptimistic.
    rewrite existsb_filter_isOptimistic. auto.
Qed.

Lemma differByEntry_performAll r ops : forall w1 w2,
  differByEntry r (publishQueue w1) (publishQueue w2) ->
  forallb (fun op => negb (applies r op)) ops = true ->
  differByEntry r (publishQueue (performAll ops w1))
                  (publishQueue (performAll ops w2)).
Proof.
  unfold performAll.
  induction ops as [|op ops IH]; intros w1 w2 H Hops; simpl in *; [exact H|].
  apply andb_true_iff in Hops as [Hop Hops].
  apply IH; [|exact Hops].
  apply differByEntry_perform; [exact H|].
  destruct (applies r op); [discriminate|reflexivity].
Qed.

(** Reverting the entry two queues differ by and running both leaves the
    same queue and publishes the same records. *)
Lemma differByEntry_revert_run U q1 q2 :
  differByEntry (updater_ref U) q1 q2 ->
  run (revertUpdate U q1) = run (revertUpdate U q2).
Proof.
  intros (Hb & He & Hq).
  unfold differByEntry, optimisticEntries, queued in *.
  unfold run, layered, rebase in *; simpl.
  rewrite !applyCommit_removeEntry, !filter_removeEntry, He, Hb.
  rewrite <- !applyOptimistic_filter with (es := removeEntry _ _).
  rewrite !filter_removeEntry, He.
  rewrite (removeEntry_absent _ (List.filter isOptimistic (entries q2)))
    by (rewrite existsb_filter_isOptimistic; exact Hq).
  reflexivity.
Qed.

Lemma differByEntry_applyUpdate U w :
  queued (updater_ref U) (publishQueue w) = false ->
  differByEntry (updater_ref U)
    (publishQueue (RelayStaticEnvironment.applyUpdate U w)) (publishQueue w).
Proof.
  intros Hq. unfold differByEntry, optimisticEntries, queued in *.
  unfold RelayStaticEnvironment.applyUpdate, seq; simpl. unfold rebase; simpl.
  rewrite (applyCommit_optimistic (List.filter isOptimistic _))
    by apply forallb_filter_isOptimistic.
  rewrite (filter_all_optimistic (List.filter isOptimistic _))
    by apply forallb_filter_isOptimistic.
  rewrite fold_left_app, filter_snoc; simpl.
  rewrite removeEntry_snoc_fresh;
    rewrite ?existsb_filter_isOptimistic; auto.
Qed.

(** [run()] leaves the world in sync, and callbacks of the application
    and other logged calls keep it so. *)
Lemma inSync_run w : inSync (publishQueue_run w).
Proof.
  unfold inSync; simpl. split.
  - apply forallb_filter_isOptimistic.
  - symmetry. apply (layered_run (publishQueue w)).
Qed.

Lemma inSync_emit e w : inSync w -> inSync (emit e w).
Proof. exact (fun H => H). Qed.

Lemma run_inSync w :
  inSync w ->
  publishQueue (publishQueue_run w) = publishQueue w /\
  store (publishQueue_run w) = store w.
Proof.
  intros [Hopt Hstore]. unfold publishQueue_run; cbn [publishQueue store].
  rewrite run_settled by exact Hopt. simpl. auto.
Qed.

(** Counting the entries with one reference. *)
Lemma occurrences_queued r q : queued r q = negb (Nat.eqb (occurrences r q) 0).
Proof.
  unfold queued, occurrences.
  induction (entries q) as [|e es IH]; simpl; [reflexivity|].
  destruct (matches r e); simpl; [reflexivity|exact IH].
Qed.

Lemma filter_matches_removeEntry_other r r' es :
  r <> r' ->
  List.filter (matches r) (removeEntry r' es) = List.filter (matches r) es.
Proof.
  intros Hne. induction es as [|e es IH]; simpl; [reflexivity|].
  destruct (matches r' e) eqn:H'; simpl.
  - destruct (matches r e) eqn:H; [|reflexivity].
    elim Hne. eapply matches_two; eauto.
  - rewrite IH. reflexivity.
Qed.

Lemma filter_matches_removeEntry r es :
  length (List.filter (matches r) (removeEntry r es)) =
  pred (length (List.filter (matches r) es)).
Proof.
  induction es as [|e es IH]; simpl; [reflexivity|].
  destruct (matches r e) eqn:H; simpl; [reflexivity|].
  rewrite H. exact IH.
Qed.

Lemma filter_matches_optimistic r es :
  List.filter (matches r) (List.filter isOptimistic es) =
  List.filter (matches r) es.
Proof.
  induction es as [|e es IH]; simpl; [reflexivity|].
  destruct (isOptimistic e) eqn:Ho; simpl; rewrite IH; [reflexivity|].
  destruct (matches r e) eqn:Hm; [|reflexivity].
  rewrite (matches_isOptimistic _ _ Hm) in Ho. discriminate.
Qed.

Lemma occurrences_perform r op w :
  mentions r op = false ->
  occurrences r (publishQueue (perform op w)) = occurrences r (publishQueue w).
Proof.
  intros Hop. unfold occurrences.
  destruct op as [u|u|sel payload upd|]; simpl in *.
  - rewrite List.filter_app; simpl. rewrite Hop, app_nil_r. reflexivity.
  - rewrite filter_matches_removeEntry_other; [reflexivity|].
    intros ->. rewrite Nat.eqb_refl in Hop. discriminate.
  - rewrite List.filter_app; simpl. rewrite app_nil_r. reflexivity.
  - rewrite filter_matches_optimistic. reflexivity.
Qed.

Lemma occurrences_performAll r ops : forall w,
  forallb (fun op => negb (mentions r op)) ops = true ->
  occurrences r (publishQueue (performAll ops w)) = occurrences r (publishQueue w).
Proof.
  unfold performAll.
  induction ops as [|op ops IH]; intros w Hops; simpl in *; [reflexivity|].
  apply andb_true_iff in Hops as [Hop Hops].
  rewrite IH by exact Hops. apply occurrences_perform.
  destruct (mentions r op); [discriminate|reflexivity].
Qed.

Lemma occurrences_revert U w :
  occurrences (updater_ref U) (publishQueue (publishQueue_revertUpdate U w)) =
  pred (occurrences (updater_ref U) (publishQueue w)).
Proof. unfold occurrences; simpl. apply filter_matches_removeEntry. Qed.

Lemma occurrences_run r w :
  occurrences r (publishQueue (publishQueue_run w)) = occurrences r (publishQueue w).
Proof. exact (occurrences_perform r OpRun w eq_refl). Qed.

Lemma occurrences_commit r selector payload updater w :
  occurrences r (publishQueue (publishQueue_commitPayload selector payload updater w)) =
  occurrences r (publishQueue w).
Proof. exact (occurrences_perform r (OpCommitPayload selector payload updater) w eq_refl). Qed.

End WorldFacts.

(** *** Rollback of an optimistic update *)

Module RollbackFacts.
Import RelayPublishQueue QueueFacts WorldFacts.

Lemma differByEntry_call X r op w1 w2 :
  differByEntry r (publishQueue w1) (publishQueue w2) ->
  reuses r op = false ->
  differByEntry r (publishQueue (call X op w1)) (publishQueue (call X op w2)).
Proof.
  intros H Hop. destruct op as [u|u|selector payload].
  - apply (differByEntry_perform r OpRun
             (perform (OpApplyUpdate u) w1) (perform (OpApplyUpdate u) w2));
      [|reflexivity].
    apply differByEntry_perform; assumption.
  - apply (differByEntry_perform r OpRun
             (perform (OpRevertUpdate u) w1) (perform (OpRevertUpdate u) w2));
      [|reflexivity].
    apply differByEntry_perform; [assumption|reflexivity].
  - cbn [call]. unfold outcome, RelayStaticEnvironment.commitPayload.
    set (e := EvNormalize selector payload None).
    destruct (normalizeRelayPayload X selector payload None)
      as [relayPayload|err]; cbn [snd].
    + apply (differByEntry_perform r OpRun
               (perform (OpCommitPayload selector relayPayload None) (emit e w1))
               (perform (OpCommitPayload selector relayPayload None) (emit e w2)));
        [|reflexivity].
      apply differByEntry_perform; [assumption|reflexivity].
    + exact H.
Qed.

Lemma differByEntry_callAll X r ops : forall w1 w2,
  differByEntry r (publishQueue w1) (publishQueue w2) ->
  forallb (fun op => negb (reuses r op)) ops = true ->
  differByEntry r (publishQueue (callAll X ops w1))
                  (publishQueue (callAll X ops w2)).
Proof.
  unfold callAll.
  induction ops as [|op ops IH]; intros w1 w2 H Hops; simpl in *; [exact H|].
  apply andb_true_iff in Hops as [Hop Hops].
  apply IH; [|exact Hops].
  apply differByEntry_call; [exact H|].
  destruct (reuses r op); [discriminate|reflexivity].
Qed.

Lemma dispose_differByEntry U w1 w2 :
  differByEntry (updater_ref U) (publishQueue w1) (publishQueue w2) ->
  store (RelayStaticEnvironment.applyUpdate_dispose U w1) =
    store (RelayStaticEnvironment.applyUpdate_dispose U w2) /\
  publishQueue (RelayStaticEnvironment.applyUpdate_dispose U w1) =
    publishQueue (RelayStaticEnvironment.applyUpdate_dispose U w2).
Proof.
  intros H. apply differByEntry_revert_run in H.
  unfold RelayStaticEnvironment.applyUpdate_dispose, seq, publishQueue_run.
  cbn [store publishQueue publishQueue_revertUpdate].
  rewrite H. auto.
Qed.

(** The same with the queue calls of any other operation in between. *)
Lemma queue_rollback (U : StoreUpdater) (ops : list QueueOp) (w : World) :
  queued (updater_ref U) (publishQueue w) = false ->
  forallb (fun op => negb (applies (updater_ref U) op)) ops = true ->
  store (RelayStaticEnvironment.applyUpdate_dispose U
           (performAll ops (RelayStaticEnvironment.applyUpdate U w))) =
  store (RelayStaticEnvironment.applyUpdate_dispose U (performAll ops w)).
Proof.
  intros Hq Hops. apply dispose_differByEntry.
  apply differByEntry_performAll; [|exact Hops].
  apply differByEntry_applyUpdate. exact Hq.
Qed.

End RollbackFacts.

(** C3. Rollback exactness: with [U] not already queued and the calls made
    in between applying no updater with [U]'s reference,
    [applyUpdate(U)], any sequence of other [applyUpdate] /
    [commitPayload] / [dispose] calls, and [dispose()] of [U]'s handle
    leave the store (and the queue) exactly as the same calls leave them
    when [applyUpdate(U)] is omitted. *)
Theorem rollback_exact
    (X : Collaborators) (U : StoreUpdater) (ops : list EnvironmentOp) (w : World) :
  RelayPublishQueue.queued (updater_ref U) (publishQueue w) = false ->
  forallb (fun op => negb (reuses (updater_ref U) op)) ops = true ->
  let withU :=
    RelayStaticEnvironment.applyUpdate_dispose U
      (callAll X ops (RelayStaticEnvironment.applyUpdate U w)) in
  let withoutU :=
    RelayStaticEnvironment.applyUpdate_dispose U (callAll X ops w) in
  store withU = store withoutU /\ publishQueue withU = publishQueue withoutU.
Proof.
  intros Hq Hops. cbv zeta.
  apply RollbackFacts.dispose_differByEntry.
  apply RollbackFacts.differByEntry_callAll; [|exact Hops].
  apply WorldFacts.differByEntry_applyUpdate. exact Hq.
Qed.

(** The example: the like is applied optimistically, another caller
    commits a payload with 42 likes and applies its own optimistic update,
    then the like is rolled back; the store is the one the other two calls
    alone produce. *)
Lemma rollback_exact_witness :
  let ops :=
    [CallCommitPayload (op_fragment Likes.likeMutation)
       (JObject [("likeCount"%string, JNumber 42)]);
     CallApplyUpdate Likes.markSeen] in
  store
    (RelayStaticEnvironment.applyUpdate_dispose Likes.increment
       (callAll Likes.collaborators ops
          (RelayStaticEnvironment.applyUpdate Likes.increment Likes.before))) =
  store
    (RelayStaticEnvironment.applyUpdate_dispose Likes.increment
       (callAll Likes.collaborators ops Likes.before)).
Proof.
  intros ops.
  exact (proj1 (rollback_exact Likes.collaborators Likes.increment ops
                  Likes.before eq_refl eq_refl)).
Defined.

(** *** sendMutation *)

Module MutationFacts.
Import RelayPublishQueue QueueFacts WorldFacts.

Lemma world_eta w :
  {| publishQueue := publishQueue w; store := store w; log := log w |} = w.
Proof. destruct w; reflexivity. Qed.

(** The callbacks passed by reference return and log their call. *)
Lemma notify_error onError error w :
  callIf (option_map observeError onError) error w =
  (Return tt,
   {| publishQueue := publishQueue w; store := store w;
      log := log w ++ notified onError EvOnError error |}).
Proof.
  destruct onError; cbn; [reflexivity|].
  unfold returning, skip. rewrite app_nil_r, world_eta. reflexivity.
Qed.

Lemma notify_completed onCompleted w :
  callIf (option_map observeCompleted onCompleted) tt w =
  (Return tt,
   {| publishQueue := publishQueue w; store := store w;
      log := log w ++
             notified onCompleted (fun r (_ : unit) => EvOnCompleted r None) tt |}).
Proof.
  destruct onCompleted; cbn; [reflexivity|].
  unfold returning, skip. rewrite app_nil_r, world_eta. reflexivity.
Qed.

Lemma notify_next onNext payload w :
  callIf (option_map observeNext onNext) payload w =
  (Return tt,
   {| publishQueue := publishQueue w; store := store w;
      log := log w ++ notified onNext EvOnNext payload |}).
Proof.
  destruct onNext; cbn; [reflexivity|].
  unfold returning, skip. rewrite app_nil_r, world_eta. reflexivity.
Qed.

(** The world the failure handler of a mutation leaves, for callbacks
    passed by reference: reverted, run, [onError] notified. *)
Lemma settle_rejected m error w oc oe operation opt0 updater :
  RelayStaticEnvironment.mutation_args m =
    mutationArgs oc oe operation opt0 updater ->
  RelayStaticEnvironment.isDisposed m = false ->
  RelayStaticEnvironment.sendMutation_settle m (Rejected error) w =
  {| publishQueue :=
       publishQueue
         (publishQueue_run
            (RelayStaticEnvironment.revertIfSet
               (RelayStaticEnvironment.optimisticUpdater m) w));
     store :=
       store
         (publishQueue_run
            (RelayStaticEnvironment.revertIfSet
               (RelayStaticEnvironment.optimisticUpdater m) w));
     log :=
       log
         (publishQueue_run
            (RelayStaticEnvironment.revertIfSet
               (RelayStaticEnvironment.optimisticUpdater m) w)) ++
       notified oe EvOnError error |}.
Proof.
  intros Hargs Hd.
  unfold RelayStaticEnvironment.sendMutation_settle, outcome,
    RelayStaticEnvironment.sendMutation_catch, andThen, returning.
  rewrite Hd, Hargs.
  cbn [mutationArgs RelayStaticEnvironment.mutation_onError].
  rewrite notify_error. reflexivity.
Qed.

(** The world the success handler of a mutation leaves, for callbacks
    passed by reference: reverted, committed, run, [onCompleted]
    notified; nothing is thrown, so the failure handler does not run. *)
Lemma settle_resolved m payload w oc oe operation opt0 updater :
  RelayStaticEnvironment.mutation_args m =
    mutationArgs oc oe operation opt0 updater ->
  RelayStaticEnvironment.isDisposed m = false ->
  RelayStaticEnvironment.sendMutation_settle m (Resolved payload) w =
  {| publishQueue :=
       publishQueue
         (publishQueue_run
            (publishQueue_commitPayload (op_fragment operation) payload updater
               (RelayStaticEnvironment.revertIfSet
                  (RelayStaticEnvironment.optimisticUpdater m) w)));
     store :=
       store
         (publishQueue_run
            (publishQueue_commitPayload (op_fragment operation) payload updater
               (RelayStaticEnvironment.revertIfSet
                  (RelayStaticEnvironment.optimisticUpdater m) w)));
     log :=
       log
         (publishQueue_run
            (publishQueue_commitPayload (op_fragment operation) payload updater
               (RelayStaticEnvironment.revertIfSet
                  (RelayStaticEnvironment.optimisticUpdater m) w))) ++
       notified oc (fun r (_ : unit) => EvOnCompleted r None) tt |}.
Proof.
  intros Hargs Hd.
  unfold RelayStaticEnvironment.sendMutation_settle, outcome, catching,
    RelayStaticEnvironment.sendMutation_then, andThen, returning.
  rewrite Hd, Hargs.
  cbn [mutationArgs RelayStaticEnvironment.mutation_onCompleted
       RelayStaticEnvironment.mutation_operation
       RelayStaticEnvironment.mutation_updater].
  rewrite notify_completed. reflexivity.
Qed.

Lemma revertIfSet_log u w :
  log (RelayStaticEnvironment.revertIfSet u w) = log w ++ reverted u.
Proof. destruct u; simpl; [reflexivity|]. rewrite app_nil_r. reflexivity. Qed.

(** After [sendMutation] on a world in sync the queue holds the old
    entries followed by the optimistic one. *)
Lemma sendMutation_queue onCompleted onError operation U updater w0 :
  inSync w0 ->
  publishQueue
    (snd (RelayStaticEnvironment.sendMutation
            (mutationArgs onCompleted onError operation (Some U) updater) w0)) =
  applyUpdate U (publishQueue w0).
Proof.
  intros [Hopt _]. simpl. unfold rebase. simpl.
  rewrite applyCommit_optimistic, filter_all_optimistic;
    rewrite ?forallb_app, ?Hopt; reflexivity.
Qed.

Lemma revert_applied U q :
  queued (updater_ref U) q = false -> revertUpdate U (applyUpdate U q) = q.
Proof.
  intros Hq. unfold revertUpdate, applyUpdate; simpl.
  rewrite removeEntry_snoc_fresh by auto. destruct q; reflexivity.
Qed.

(** The records a not-disposed mutation publishes when its promise
    resolves. *)
Lemma then_store onCompleted onError operation optimistic updater payload w0 w :
  store
    (RelayStaticEnvironment.sendMutation_settle
       (fst (RelayStaticEnvironment.sendMutation
               (mutationArgs onCompleted onError operation optimistic updater)
               w0))
       (Resolved payload) w) =
  snd (run (commitPayload (op_fragment operation) payload updater
              match optimistic with
              | Some U => revertUpdate U (publishQueue w)
              | None => publishQueue w
              end)).
Proof.
  rewrite (settle_resolved
             (fst (RelayStaticEnvironment.sendMutation
                     (mutationArgs onCompleted onError operation optimistic
                        updater) w0))
             payload w onCompleted onError operation
             optimistic updater eq_refl eq_refl).
  cbn [store fst RelayStaticEnvironment.sendMutation
       RelayStaticEnvironment.optimisticUpdater mutationArgs
       RelayStaticEnvironment.mutation_optimisticUpdater].
  destruct optimistic; reflexivity.
Qed.

End MutationFacts.

(** C1. Failure path of a mutation with an optimistic updater [U]: when the
    promise of the transport rejects and the handle was not disposed, the
    handler calls [revertUpdate(U)], then [run()], then [onError(error)]
    (once, when the callback was supplied) and nothing else, in particular
    no [commitPayload]; after it the store and the queue are what they were
    before [sendMutation] was called. *)
Theorem sendMutation_failure_path
    (onCompleted onError : option nat) (operation : OperationSelector)
    (U : StoreUpdater) (updater : option SelectorStoreUpdater)
    (error : Error) (w0 : World) :
  RelayPublishQueue.queued (updater_ref U) (publishQueue w0) = false ->
  inSync w0 ->
  let args := mutationArgs onCompleted onError operation (Some U) updater in
  let m := fst (RelayStaticEnvironment.sendMutation args w0) in
  let w1 := snd (RelayStaticEnvironment.sendMutation args w0) in
  let w2 := RelayStaticEnvironment.sendMutation_settle m (Rejected error) w1 in
  RelayStaticEnvironment.isDisposed m = false /\
  (forall w,
     log (RelayStaticEnvironment.sendMutation_settle m (Rejected error) w) =
     log w ++ [EvRevertUpdate (updater_ref U); EvRun] ++
              notified onError EvOnError error) /\
  (forall r, onError = Some r ->
     List.filter isOnError
       (skipn (length (log w1)) (log w2)) = [EvOnError r error]) /\
  store w2 = store w0 /\
  publishQueue w2 = publishQueue w0.
Proof.
  intros Hq Hsync args m w1 w2.
  assert (Hlog : forall w,
     log (RelayStaticEnvironment.sendMutation_settle m (Rejected error) w) =
     log w ++ [EvRevertUpdate (updater_ref U); EvRun] ++
              notified onError EvOnError error).
  { intros w.
    rewrite (MutationFacts.settle_rejected m error w onCompleted onError
               operation (Some U) updater eq_refl eq_refl).
    cbn. rewrite <- !app_assoc. reflexivity. }
  split; [reflexivity|]. split; [exact Hlog|]. split.
  { intros r ->. subst w2. rewrite Hlog.
    rewrite skipn_app, skipn_all, Nat.sub_diag. reflexivity. }
  assert (Hw1 : publishQueue w1 =
                RelayPublishQueue.applyUpdate U (publishQueue w0))
    by (apply MutationFacts.sendMutation_queue; exact Hsync).
  subst w2.
  rewrite (MutationFacts.settle_rejected m error w1 onCompleted onError
             operation (Some U) updater eq_refl eq_refl).
  subst m args.
  cbn [store publishQueue publishQueue_run publishQueue_revertUpdate
       RelayStaticEnvironment.revertIfSet fst
       RelayStaticEnvironment.sendMutation
       RelayStaticEnvironment.optimisticUpdater mutationArgs
       RelayStaticEnvironment.mutation_optimisticUpdater].
  rewrite Hw1, MutationFacts.revert_applied by exact Hq.
  destruct Hsync as [Hopt Hstore].
  rewrite QueueFacts.run_settled by exact Hopt. simpl. auto.
Qed.

(** The example: ten likes, the optimistic update shows eleven, the
    transport rejects: the store shows ten again and [onError] was called
    once. *)
Lemma sendMutation_failure_path_witness :
  let args :=
    mutationArgs (Some 7) (Some 8) Likes.likeMutation (Some Likes.increment)
      None in
  let m := fst (RelayStaticEnvironment.sendMutation args Likes.before) in
  let w1 := snd (RelayStaticEnvironment.sendMutation args Likes.before) in
  let w2 :=
    RelayStaticEnvironment.sendMutation_settle m (Rejected Likes.networkError)
      w1 in
  Likes.likeCount (store w1) = Some (VInt 11) /\
  Likes.likeCount (store w2) = Some (VInt 10) /\
  log w2 = log w1 ++ [EvRevertUpdate 1; EvRun; EvOnError 8 Likes.networkError].
Proof.
  intros args m w1 w2.
  destruct (sendMutation_failure_path (Some 7) (Some 8) Likes.likeMutation
              Likes.increment None Likes.networkError Likes.before
              eq_refl (conj eq_refl eq_refl))
    as (_ & Hlog & _ & Hstore & _).
  split; [vm_compute; reflexivity|].
  split.
  - unfold w2, m, w1, args. rewrite Hstore. reflexivity.
  - exact (Hlog w1).
Defined.

Module CommitFacts.
Import RelayPublishQueue QueueFacts WorldFacts.

(** A written field reads back from the published records. *)
Lemma publish_lookup (writes target : RecordSource) id rec field v :
  writes !! id = Some rec -> rec !! field = Some v ->
  exists rec', publish writes target !! id = Some rec' /\ rec' !! field = Some v.
Proof.
  intros Hid Hfield. unfold publish.
  rewrite lookup_union_with, Hid.
  destruct (target !! id) as [old|]; simpl.
  - exists (rec ∪ old). split; [reflexivity|].
    apply lookup_union_Some_l. exact Hfield.
  - exists rec. auto.
Qed.

(** Committing on a queue without pending commits and running: the commit
    goes to the base and the optimistic entries are layered on top. *)
Lemma commit_run_layered q selector payload updater :
  forallb isOptimistic (entries q) = true ->
  snd (run (commitPayload selector payload updater q)) =
  fold_left applyOptimistic (entries q)
    (applyCommit (base q) (Commit selector payload updater)).
Proof.
  intros Hopt. unfold run, layered, rebase; simpl.
  rewrite !fold_left_app; simpl.
  rewrite applyCommit_optimistic by exact Hopt. reflexivity.
Qed.

End CommitFacts.

(** C2. Success path of a mutation: when the promise of the transport
    resolves and the handle was not disposed, the handler calls
    [revertUpdate] on the optimistic updater when there is one, then
    [commitPayload(operation.fragment, payload, updater)], then [run()],
    then [onCompleted()]; the store then shows the payload committed to the
    base (followed by the caller's updater) with the optimistic entries of
    other operations layered on top and the mutation's own prediction gone,
    so that, when nothing else is layered, every field the server wrote
    reads back with the server's value. *)
Theorem sendMutation_success_path
    (onCompleted onError : option nat) (operation : OperationSelector)
    (optimistic : option StoreUpdater) (updater : option SelectorStoreUpdater)
    (payload : RelayResponsePayload) (w0 : World) :
  (forall U, optimistic = Some U ->
     RelayPublishQueue.queued (updater_ref U) (publishQueue w0) = false) ->
  inSync w0 ->
  let args := mutationArgs onCompleted onError operation optimistic updater in
  let m := fst (RelayStaticEnvironment.sendMutation args w0) in
  let w1 := snd (RelayStaticEnvironment.sendMutation args w0) in
  let w2 := RelayStaticEnvironment.sendMutation_settle m (Resolved payload) w1 in
  RelayStaticEnvironment.isDisposed m = false /\
  (forall w,
     log (RelayStaticEnvironment.sendMutation_settle m (Resolved payload) w) =
     log w ++ reverted optimistic ++
       [EvCommitPayload (op_fragment operation) payload
          (option_map updater_ref updater); EvRun] ++
       notified onCompleted (fun r (_ : unit) => EvOnCompleted r None) tt) /\
  store w2 =
    fold_left RelayPublishQueue.applyOptimistic
      (RelayPublishQueue.entries (publishQueue w0))
      (RelayPublishQueue.applyCommit
         (RelayPublishQueue.base (publishQueue w0))
         (RelayPublishQueue.Commit (op_fragment operation) payload updater)) /\
  (RelayPublishQueue.entries (publishQueue w0) = [] -> updater = None ->
   forall id rec field v,
     source payload !! id = Some rec -> rec !! field = Some v ->
     exists rec', store w2 !! id = Some rec' /\ rec' !! field = Some v).
Proof.
  intros Hfresh Hsync args m w1 w2.
  assert (Hstore : store w2 =
    fold_left RelayPublishQueue.applyOptimistic
      (RelayPublishQueue.entries (publishQueue w0))
      (RelayPublishQueue.applyCommit
         (RelayPublishQueue.base (publishQueue w0))
         (RelayPublishQueue.Commit (op_fragment operation) payload updater))).
  { destruct Hsync as [Hopt Hstore].
    assert (Hw1 : match optimistic with
                  | Some U => RelayPublishQueue.revertUpdate U (publishQueue w1)
                  | None => publishQueue w1
                  end = publishQueue w0).
    { subst w1 args. destruct optimistic as [U|].
      - rewrite MutationFacts.sendMutation_queue by (split; assumption).
        apply MutationFacts.revert_applied, Hfresh. reflexivity.
      - reflexivity. }
    clearbody w1. subst w2 m args.
    rewrite MutationFacts.then_store. cbn [fst RelayStaticEnvironment.sendMutation
      RelayStaticEnvironment.mutation_optimisticUpdater mutationArgs].
    rewrite Hw1. apply CommitFacts.commit_run_layered. exact Hopt. }
  split; [reflexivity|]. split.
  { intros w.
    rewrite (MutationFacts.settle_resolved m payload w onCompleted onError
               operation optimistic updater eq_refl eq_refl).
    subst m args. cbn.
    rewrite MutationFacts.revertIfSet_log.
    rewrite <- !app_assoc. reflexivity. }
  split; [exact Hstore|].
  intros Hnone -> id rec field v Hid Hfield.
  rewrite Hstore, Hnone. simpl.
  eapply CommitFacts.publish_lookup; eassumption.
Qed.

(** The example: ten likes, the optimistic update shows eleven, the server
    confirms 42: the store shows 42. *)
Lemma sendMutation_success_path_witness :
  let args :=
    mutationArgs (Some 7) (Some 8) Likes.likeMutation (Some Likes.increment)
      None in
  let m := fst (RelayStaticEnvironment.sendMutation args Likes.before) in
  let w1 := snd (RelayStaticEnvironment.sendMutation args Likes.before) in
  let w2 :=
    RelayStaticEnvironment.sendMutation_settle m (Resolved Likes.confirmed)
      w1 in
  Likes.likeCount (store w1) = Some (VInt 11) /\
  Likes.likeCount (store w2) = Some (VInt 42) /\
  log w2 =
    log w1 ++
    [EvRevertUpdate 1;
     EvCommitPayload (op_fragment Likes.likeMutation) Likes.confirmed None;
     EvRun; EvOnCompleted 7 None].
Proof.
  intros args m w1 w2.
  destruct (sendMutation_success_path (Some 7) (Some 8) Likes.likeMutation
              (Some Likes.increment) None Likes.confirmed Likes.before
              (fun U HU =>
                 match HU in _ = o
                       return match o with
                              | Some V =>
                                  RelayPublishQueue.queued (updater_ref V)
                                    (publishQueue Likes.before) = false
                              | None => True
                              end
                 with eq_refl => eq_refl end)
              (conj eq_refl eq_refl))
    as (_ & Hlog & Hstore & _).
  split; [vm_compute; reflexivity|].
  split.
  - unfold w2, m, w1, args. rewrite Hstore. vm_compute. reflexivity.
  - exact (Hlog w1).
Defined.

(** *** The life of a mutation's optimistic entry *)

Module LifecycleFacts.
Import RelayPublishQueue QueueFacts WorldFacts MutationFacts.

Lemma inSync_components w w' :
  publishQueue w' = publishQueue w -> store w' = store w ->
  inSync w -> inSync w'.
Proof. unfold inSync. intros -> ->. auto. Qed.

Lemma occurrences_revertIfSet_same U w :
  occurrences (updater_ref U)
    (publishQueue (RelayStaticEnvironment.revertIfSet (Some U) w)) =
  pred (occurrences (updater_ref U) (publishQueue w)).
Proof. apply occurrences_revert. Qed.

Lemma occurrences_applied U q :
  occurrences (updater_ref U) (applyUpdate U q) =
  S (occurrences (updater_ref U) q).
Proof.
  unfold occurrences, applyUpdate; simpl.
  rewrite List.filter_app, length_app; simpl.
  rewrite Nat.eqb_refl; simpl. lia.
Qed.

Lemma settle_disposed m settled w :
  RelayStaticEnvironment.isDisposed m = true ->
  RelayStaticEnvironment.sendMutation_settle m settled w = w.
Proof.
  intros H. destruct settled; cbn;
    unfold outcome, catching, RelayStaticEnvironment.sendMutation_then,
      RelayStaticEnvironment.sendMutation_catch; rewrite H; reflexivity.
Qed.

(** A handler that runs ends in sync, and touches the optimistic entries
    only through its guarded [revertUpdate]. *)
Lemma settle_not_disposed m settled w oc oe operation opt0 updater :
  RelayStaticEnvironment.mutation_args m =
    mutationArgs oc oe operation opt0 updater ->
  RelayStaticEnvironment.isDisposed m = false ->
  inSync (RelayStaticEnvironment.sendMutation_settle m settled w) /\
  forall r,
    occurrences r
      (publishQueue (RelayStaticEnvironment.sendMutation_settle m settled w)) =
    occurrences r
      (publishQueue
         (RelayStaticEnvironment.revertIfSet
            (RelayStaticEnvironment.optimisticUpdater m) w)).
Proof.
  intros Hargs Hd. destruct settled as [payload|error].
  - rewrite (settle_resolved m payload w _ _ _ _ _ Hargs Hd). split.
    + eapply inSync_components; [| |apply inSync_run]; reflexivity.
    + intros r. cbn [publishQueue].
      change (fst (run ?q)) with
        (publishQueue (publishQueue_run
           {| publishQueue := q; store := ∅; log := [] |})).
      rewrite occurrences_run. cbn [publishQueue].
      apply occurrences_commit.
  - rewrite (settle_rejected m error w _ _ _ _ _ Hargs Hd). split.
    + eapply inSync_components; [| |apply inSync_run]; reflexivity.
    + intros r. cbn [publishQueue].
      change (fst (run ?q)) with
        (publishQueue (publishQueue_run
           {| publishQueue := q; store := ∅; log := [] |})).
      rewrite occurrences_run. reflexivity.
Qed.

Section OneMutation.
Context (onCompleted onError : option nat) (operation : OperationSelector)
        (U : StoreUpdater) (updater : option SelectorStoreUpdater).

Let args := mutationArgs onCompleted onError operation (Some U) updater.
Let r := updater_ref U.

Lemma sendMutation_awaiting w0 :
  queued r (publishQueue w0) = false ->
  awaiting args U (RelayStaticEnvironment.sendMutation args w0).
Proof.
  intros Hq. unfold awaiting.
  split; [reflexivity|]. split; [reflexivity|]. split; [reflexivity|].
  split.
  - subst args. cbn [snd RelayStaticEnvironment.sendMutation mutationArgs
      RelayStaticEnvironment.mutation_optimisticUpdater].
    unfold RelayNetwork.request, seq.
    change (publishQueue (emit ?e ?w)) with (publishQueue w).
    rewrite occurrences_run.
    cbn [publishQueue publishQueue_applyUpdate].
    rewrite occurrences_applied.
    rewrite occurrences_queued in Hq. fold r in Hq |- *.
    destruct (occurrences r (publishQueue w0)); [reflexivity|discriminate].
  - subst args. cbn [snd RelayStaticEnvironment.sendMutation mutationArgs
      RelayStaticEnvironment.mutation_optimisticUpdater].
    unfold RelayNetwork.request, seq.
    apply inSync_emit, inSync_run.
Qed.

Lemma step_other_occurrences s ops :
  forallb (fun op => negb (mentions r op)) ops = true ->
  occurrences r (publishQueue (snd (step s (Other ops)))) =
  occurrences r (publishQueue (snd s)).
Proof.
  intros H. cbn [step snd]. unfold seq.
  rewrite occurrences_run. apply occurrences_performAll. exact H.
Qed.

Lemma step_finished s ev :
  finished args U s -> foreign r ev = true -> finished args U (step s ev).
Proof.
  destruct s as [m w]. intros (Hargs & Hopt & Hocc & Hsync) Hev.
  cbn [fst snd] in *. unfold finished. fold r in Hocc |- *.
  destruct ev as [|settled|ops]; cbn [step fst snd].
  - unfold RelayStaticEnvironment.dispose; cbn [fst snd
      RelayStaticEnvironment.mutation_args
      RelayStaticEnvironment.optimisticUpdater].
    split; [exact Hargs|]. split; [right; reflexivity|].
    destruct Hopt as [-> | ->]; [|auto].
    unfold seq. split; [|apply inSync_run].
    rewrite occurrences_run. unfold r. rewrite occurrences_revert.
    fold r. rewrite Hocc. reflexivity.
  - split; [exact Hargs|]. split; [exact Hopt|].
    destruct (RelayStaticEnvironment.isDisposed m) eqn:Hd.
    + rewrite settle_disposed by exact Hd. auto.
    + destruct (settle_not_disposed m settled w _ _ _ _ _ Hargs Hd)
        as [Hs Ho].
      split; [|exact Hs]. rewrite Ho.
      destruct Hopt as [-> | ->]; cbn [RelayStaticEnvironment.revertIfSet].
      * unfold r. rewrite occurrences_revert. fold r.
        rewrite Hocc. reflexivity.
      * exact Hocc.
  - split; [exact Hargs|]. split; [exact Hopt|].
    split; [|unfold seq; apply inSync_run].
    pose proof (step_other_occurrences (m, w) ops Hev) as Hother.
    cbn [step snd] in Hother. rewrite Hother. exact Hocc.
Qed.

Lemma step_awaiting_other s ops :
  awaiting args U s -> foreign r (Other ops) = true ->
  awaiting args U (step s (Other ops)).
Proof.
  destruct s as [m w]. intros (Hargs & Hd & Hopt & Hocc & Hsync) Hev.
  unfold awaiting. fold r in Hocc |- *.
  rewrite (step_other_occurrences (m, w) ops Hev).
  cbn [step fst snd] in *. unfold seq.
  auto using inSync_run.
Qed.

Lemma step_awaiting_terminal s ev :
  awaiting args U s -> isTerminal ev = true -> finished args U (step s ev).
Proof.
  destruct s as [m w]. intros (Hargs & Hd & Hopt & Hocc & Hsync) Hev.
  cbn [fst snd] in *. unfold finished. fold r in Hocc |- *.
  destruct ev as [|settled|ops]; cbn [step fst snd]; [| |discriminate].
  - unfold RelayStaticEnvironment.dispose; cbn [fst snd
      RelayStaticEnvironment.mutation_args
      RelayStaticEnvironment.optimisticUpdater].
    split; [exact Hargs|]. split; [right; reflexivity|].
    rewrite Hopt. unfold seq. split; [|apply inSync_run].
    rewrite occurrences_run. unfold r. rewrite occurrences_revert.
    fold r. rewrite Hocc. reflexivity.
  - split; [exact Hargs|]. split; [left; exact Hopt|].
    destruct (settle_not_disposed m settled w _ _ _ _ _ Hargs Hd)
      as [Hs Ho].
    split; [|exact Hs]. rewrite Ho, Hopt.
    cbn [RelayStaticEnvironment.revertIfSet].
    unfold r. rewrite occurrences_revert. fold r.
    rewrite Hocc. reflexivity.
Qed.

Lemma removals_finished h : forall s,
  finished args U s -> forallb (foreign r) h = true ->
  removals r h s = 0 /\ finished args U (steps h s).
Proof.
  induction h as [|ev h IH]; intros s Hf Hh; simpl in *; [auto|].
  apply andb_true_iff in Hh as [Hev Hh].
  pose proof (step_finished s ev Hf Hev) as Hf'.
  destruct (IH _ Hf' Hh) as [Hr Hfin].
  split; [|exact Hfin].
  destruct Hf as (_ & _ & Hocc & _). fold r in Hocc.
  rewrite Hr, occurrences_queued, Hocc. reflexivity.
Qed.

Lemma removals_awaiting h : forall s,
  awaiting args U s -> forallb (foreign r) h = true ->
  (existsb isTerminal h = true ->
     removals r h s = 1 /\ finished args U (steps h s)) /\
  (existsb isTerminal h = false ->
     removals r h s = 0 /\ awaiting args U (steps h s)).
Proof.
  induction h as [|ev h IH]; intros s Ha Hh; simpl in *.
  - split; [discriminate|auto].
  - apply andb_true_iff in Hh as [Hev Hh].
    pose proof Ha as (_ & _ & _ & Hocc & _). fold r in Hocc.
    destruct (isTerminal ev) eqn:Hterm; simpl.
    + split; [intros _|discriminate].
      pose proof (step_awaiting_terminal s ev Ha Hterm) as Hf.
      destruct (removals_finished h _ Hf Hh) as [Hr Hfin].
      split; [|exact Hfin].
      pose proof Hf as (_ & _ & Hocc' & _). fold r in Hocc'.
      rewrite Hr, !occurrences_queued, Hocc, Hocc'. reflexivity.
    + destruct ev as [| |ops]; try discriminate.
      pose proof (step_awaiting_other s ops Ha Hev) as Ha'.
      pose proof Ha' as (_ & _ & _ & Hocc' & _). fold r in Hocc'.
      destruct (IH _ Ha' Hh) as [IH1 IH2].
      rewrite !occurrences_queued, Hocc, Hocc'. simpl.
      split; assumption.
Qed.

(** Disposing a finished mutation changes nothing the application can
    observe. *)
Lemma dispose_finished s :
  finished args U s ->
  observable (snd (RelayStaticEnvironment.dispose (fst s) (snd s))) =
  observable (snd s).
Proof.
  destruct s as [m w]. intros (Hargs & Hopt & Hocc & Hsync).
  cbn [fst snd] in *. unfold RelayStaticEnvironment.dispose; cbn [snd].
  destruct Hopt as [-> | ->]; [|reflexivity].
  assert (Hq : queued (updater_ref U) (publishQueue w) = false)
    by (rewrite occurrences_queued, Hocc; reflexivity).
  unfold seq, observable.
  destruct (run_inSync (publishQueue_revertUpdate U w)) as [Hqueue Hstore].
  { eapply inSync_components; [| |exact Hsync]; cbn [publishQueue store
      publishQueue_revertUpdate]; [|reflexivity].
    apply revertUpdate_absent. exact Hq. }
  rewrite Hqueue, Hstore.
  cbn [publishQueue store log publishQueue_revertUpdate publishQueue_run].
  rewrite revertUpdate_absent by exact Hq.
  rewrite <- app_assoc, List.filter_app; simpl. rewrite app_nil_r.
  reflexivity.
Qed.

End OneMutation.

Lemma dispose_twice m w :
  let s1 := RelayStaticEnvironment.dispose m w in
  RelayStaticEnvironment.dispose (fst s1) (snd s1) = s1.
Proof. reflexivity. Qed.

End LifecycleFacts.

(** C4. A mutation sent with an optimistic updater [U] (not already queued,
    and left alone by the other operations): as long as no terminal
    transition happened the entry is queued; over any history that contains
    a terminal transition (the promise resolves, it rejects, the caller
    disposes) the entry leaves the queue at exactly one step and is not
    queued at the end; a [dispose()] after a terminal transition, in
    particular a second [dispose()] or one after the promise settled,
    changes neither the queue, nor the store, nor the callbacks invoked;
    and a second [dispose()] right after a first changes nothing at all. *)
Theorem optimistic_entry_removed_once
    (onCompleted onError : option nat) (operation : OperationSelector)
    (U : StoreUpdater) (updater : option SelectorStoreUpdater) (w0 : World) :
  RelayPublishQueue.queued (updater_ref U) (publishQueue w0) = false ->
  let r := updater_ref U in
  let s0 :=
    RelayStaticEnvironment.sendMutation
      (mutationArgs onCompleted onError operation (Some U) updater) w0 in
  (forall h,
     forallb (foreign r) h = true -> existsb isTerminal h = false ->
     RelayPublishQueue.queued r (publishQueue (snd (steps h s0))) = true) /\
  (forall h,
     forallb (foreign r) h = true -> existsb isTerminal h = true ->
     removals r h s0 = 1 /\
     RelayPublishQueue.queued r (publishQueue (snd (steps h s0))) = false) /\
  (forall h,
     forallb (foreign r) h = true -> existsb isTerminal h = true ->
     let s := steps h s0 in
     observable (snd (RelayStaticEnvironment.dispose (fst s) (snd s))) =
     observable (snd s)) /\
  (forall m w,
     let s1 := RelayStaticEnvironment.dispose m w in
     RelayStaticEnvironment.dispose (fst s1) (snd s1) = s1).
Proof.
  intros Hq r s0. subst r.
  pose proof (LifecycleFacts.sendMutation_awaiting
                onCompleted onError operation U updater w0 Hq) as Ha.
  fold s0 in Ha.
  split; [|split; [|split]].
  - intros h Hh Hterm.
    destruct (LifecycleFacts.removals_awaiting _ _ _ _ _ h s0 Ha Hh) as [_ H].
    destruct (H Hterm) as (_ & _ & _ & _ & Hocc & _).
    rewrite WorldFacts.occurrences_queued, Hocc. reflexivity.
  - intros h Hh Hterm.
    destruct (LifecycleFacts.removals_awaiting _ _ _ _ _ h s0 Ha Hh) as [H _].
    destruct (H Hterm) as (Hr & _ & _ & Hocc & _).
    split; [exact Hr|].
    rewrite WorldFacts.occurrences_queued, Hocc. reflexivity.
  - intros h Hh Hterm s.
    destruct (LifecycleFacts.removals_awaiting _ _ _ _ _ h s0 Ha Hh) as [H _].
    destruct (H Hterm) as [_ Hfin].
    eapply LifecycleFacts.dispose_finished. exact Hfin.
  - intros m w. reflexivity.
Qed.

(** The example: another caller applies its update, the server confirms,
    the caller disposes twice: the entry left the queue at one step, and
    the two [dispose()] calls changed nothing the application can see. *)
Lemma optimistic_entry_removed_once_witness :
  let s0 :=
    RelayStaticEnvironment.sendMutation
      (mutationArgs (Some 7) (Some 8) Likes.likeMutation
         (Some Likes.increment) None) Likes.before in
  let h :=
    [Other [OpApplyUpdate Likes.markSeen];
     Settle (Resolved Likes.confirmed); Dispose; Dispose] in
  removals 1 h s0 = 1 /\
  RelayPublishQueue.queued 1 (publishQueue (snd (steps h s0))) = false /\
  observable (snd (steps h s0)) =
    observable (snd (steps [Other [OpApplyUpdate Likes.markSeen];
                            Settle (Resolved Likes.confirmed)] s0)).
Proof.
  intros s0 h.
  destruct (optimistic_entry_removed_once (Some 7) (Some 8) Likes.likeMutation
              Likes.increment None Likes.before eq_refl)
    as (_ & Hremoved & Hdispose & _).
  destruct (Hremoved h eq_refl eq_refl) as [H1 H2].
  split; [exact H1|]. split; [exact H2|].
  pose proof (Hdispose [Other [OpApplyUpdate Likes.markSeen];
                        Settle (Resolved Likes.confirmed)] eq_refl eq_refl)
    as Hfirst.
  pose proof (Hdispose [Other [OpApplyUpdate Likes.markSeen];
                        Settle (Resolved Likes.confirmed); Dispose]
                eq_refl eq_refl) as Hsecond.
  exact (eq_trans Hsecond Hfirst).
Defined.

(** *** Queries and subscriptions *)

(** C5. A query disposed before the promise of the transport settles: when
    the promise then resolves or rejects the handlers leave the world as it
    is (no [commitPayload], no [run()], no [onNext], [onCompleted] or
    [onError]); counted from the transport's own response, where
    [RelayNetwork.request] still normalizes, the queue and the store are
    unchanged and no queue call and no callback is logged. *)
Theorem sendQuery_disposed_suppressed
    (X : Collaborators) (config : RelayStaticEnvironment.QueryConfig)
    (w0 : World) :
  let q :=
    RelayStaticEnvironment.sendQuery_dispose
      (fst (RelayStaticEnvironment.sendQuery config w0)) in
  (forall settled w, RelayStaticEnvironment.sendQuery_settle q settled w = w) /\
  (forall fetched w,
     let w' := RelayStaticEnvironment.sendQuery_fetched X q fetched w in
     publishQueue w' = publishQueue w /\ store w' = store w /\
     List.filter (fun e => isQueueCall e || isCallback e) (log w') =
     List.filter (fun e => isQueueCall e || isCallback e) (log w)).
Proof.
  intros q. split.
  - intros [payload|error] w; reflexivity.
  - intros [[[d|] errs]|error] w;
      unfold RelayStaticEnvironment.sendQuery_fetched,
        RelayNetwork.request_resume, RelayNetwork.normalizePayload;
      cbn [data errors].
    + destruct (normalizeRelayPayload X _ d _) as [relayPayload|err];
        destruct errs as [[|e es]|]; cbn;
        rewrite ?List.filter_app; cbn; rewrite ?app_nil_r; auto.
    + cbn. auto.
    + cbn. auto.
Qed.

(** *** Responses with data *)

Module ResponseFacts.
Import MutationFacts.

(** A response with data: [normalizePayload] warns when the errors list is
    a non-empty array, then calls the normalizer and completes as the
    normalizer does; it touches neither the queue nor the store. *)
Lemma normalizePayload_data X operation vars d errs w :
  RelayNetwork.normalizePayload X operation vars
    {| data := Some d; errors := errs |} w =
  (normalizeRelayPayload X (rootSelector X operation vars) d strippedNulls,
   {| publishQueue := publishQueue w; store := store w;
      log := log w ++ warned operation vars errs ++
             [EvNormalize (rootSelector X operation vars) d strippedNulls] |}).
Proof.
  unfold RelayNetwork.normalizePayload; cbn [data errors].
  destruct errs as [[|e es]|]; cbn; unfold emit; cbn;
    rewrite <- ?app_assoc; reflexivity.
Qed.

Lemma request_resume_data X operation vars d errs w :
  RelayNetwork.request_resume X operation vars
    (Resolved {| data := Some d; errors := errs |}) w =
  (requestSettled X operation vars d,
   {| publishQueue := publishQueue w; store := store w;
      log := log w ++ warned operation vars errs ++
             [EvNormalize (rootSelector X operation vars) d strippedNulls] |}).
Proof.
  unfold RelayNetwork.request_resume, requestSettled.
  rewrite normalizePayload_data.
  destruct (normalizeRelayPayload X _ d _); reflexivity.
Qed.

(** The world the success handler of a query leaves, for callbacks passed
    by reference: committed, run, [onNext] and [onCompleted] notified;
    nothing is thrown, so the failure handler does not run. *)
Lemma query_resolved q payload w cacheConfig oc oe on operation :
  RelayStaticEnvironment.query_config q =
    queryConfig cacheConfig oc oe on operation ->
  RelayStaticEnvironment.query_isDisposed q = false ->
  RelayStaticEnvironment.sendQuery_settle q (Resolved payload) w =
  {| publishQueue :=
       fst (RelayPublishQueue.run
              (RelayPublishQueue.commitPayload (op_fragment operation) payload
                 None (publishQueue w)));
     store :=
       snd (RelayPublishQueue.run
              (RelayPublishQueue.commitPayload (op_fragment operation) payload
                 None (publishQueue w)));
     log :=
       log w ++ [EvCommitPayload (op_fragment operation) payload None; EvRun] ++
       notified on EvOnNext payload ++
       notified oc (fun r (_ : unit) => EvOnCompleted r None) tt |}.
Proof.
  intros Hconfig Hd.
  unfold RelayStaticEnvironment.sendQuery_settle, outcome, catching,
    RelayStaticEnvironment.sendQuery_then, andThen, returning.
  rewrite Hd, Hconfig.
  cbn [queryConfig RelayStaticEnvironment.query_onNext
       RelayStaticEnvironment.query_onCompleted
       RelayStaticEnvironment.query_operation].
  rewrite notify_next, notify_completed. cbn.
  rewrite <- !app_assoc. reflexivity.
Qed.

Lemma query_rejected q error w cacheConfig oc oe on operation :
  RelayStaticEnvironment.query_config q =
    queryConfig cacheConfig oc oe on operation ->
  RelayStaticEnvironment.query_isDisposed q = false ->
  RelayStaticEnvironment.sendQuery_settle q (Rejected error) w =
  {| publishQueue := publishQueue w; store := store w;
     log := log w ++ notified oe EvOnError error |}.
Proof.
  intros Hconfig Hd.
  unfold RelayStaticEnvironment.sendQuery_settle, outcome,
    RelayStaticEnvironment.sendQuery_catch.
  rewrite Hd, Hconfig. cbn [queryConfig RelayStaticEnvironment.query_onError].
  rewrite notify_error. reflexivity.
Qed.

Lemma query_fetched_data X q d errs w :
  RelayStaticEnvironment.sendQuery_fetched X q
    (Resolved {| data := Some d; errors := errs |}) w =
  let operation :=
    RelayStaticEnvironment.query_operation
      (RelayStaticEnvironment.query_config q) in
  RelayStaticEnvironment.sendQuery_settle q
    (requestSettled X (op_node operation) (op_variables operation) d)
    {| publishQueue := publishQueue w; store := store w;
       log := log w ++
              warned (op_node operation) (op_variables operation) errs ++
              [EvNormalize
                 (rootSelector X (op_node operation) (op_variables operation))
                 d strippedNulls] |}.
Proof.
  unfold RelayStaticEnvironment.sendQuery_fetched.
  rewrite request_resume_data. reflexivity.
Qed.


(** The world the fulfilment handler of a subscription leaves for a
    response with data, for callbacks passed by reference: when the
    normalizer returns, the wrapped [onNext] commits, runs the queue and
    notifies [onNext], then [onCompleted] is notified; when the normalizer
    throws, the [catch] block notifies [onError] and returns. *)
Lemma subscription_data X cacheConfig oc oe on operation w0 d errs w :
  RelayNetwork.subscription_settle X
    (fst (RelayStaticEnvironment.sendQuerySubscription
            (queryConfig cacheConfig oc oe on operation) w0))
    (Resolved {| data := Some d; errors := errs |}) w =
  match
    normalizeRelayPayload X
      (rootSelector X (op_node operation) (op_variables operation)) d
      strippedNulls
  with
  | Return relayPayload =>
      {| publishQueue :=
           fst (RelayPublishQueue.run
                  (RelayPublishQueue.commitPayload (op_fragment operation)
                     relayPayload None (publishQueue w)));
         store :=
           snd (RelayPublishQueue.run
                  (RelayPublishQueue.commitPayload (op_fragment operation)
                     relayPayload None (publishQueue w)));
         log :=
           log w ++ warned (op_node operation) (op_variables operation) errs ++
           [EvNormalize
              (rootSelector X (op_node operation) (op_variables operation)) d
              strippedNulls;
            EvCommitPayload (op_fragment operation) relayPayload None; EvRun] ++
           notified on EvOnNext relayPayload ++
           notified oc (fun r (_ : unit) => EvOnCompleted r None) tt |}
  | Throw err =>
      {| publishQueue := publishQueue w; store := store w;
         log :=
           log w ++ warned (op_node operation) (op_variables operation) errs ++
           [EvNormalize
              (rootSelector X (op_node operation) (op_variables operation)) d
              strippedNulls] ++
           notified oe EvOnError err |}
  end.
Proof.
  unfold RelayNetwork.subscription_settle, outcome,
    RelayNetwork.subscription_fulfilled.
  cbn [fst RelayStaticEnvironment.sendQuerySubscription
       RelayNetwork.requestSubscription RelayNetwork.sub_isDisposed
       RelayNetwork.sub_operation RelayNetwork.sub_variables
       RelayNetwork.sub_observer RelayNetwork.obs_onNext
       RelayNetwork.obs_onError RelayNetwork.obs_onCompleted
       queryConfig RelayStaticEnvironment.query_operation
       RelayStaticEnvironment.query_onNext RelayStaticEnvironment.query_onError
       RelayStaticEnvironment.query_onCompleted
       RelayStaticEnvironment.query_cacheConfig].
  rewrite normalizePayload_data.
  destruct (normalizeRelayPayload X _ d _) as [relayPayload|err].
  - unfold andThen, returning. cbn [callIf].
    rewrite notify_next, notify_completed. cbn.
    rewrite <- !app_assoc. reflexivity.
  - rewrite notify_error. cbn. rewrite <- !app_assoc. reflexivity.
Qed.

End ResponseFacts.



(** C8. A subscription started with [sendQuerySubscription]: when the
    transport fails, [onError] is called once with the failure and nothing
    else happens; when the transport delivers a response with data that the
    normalizer accepts, the payload is committed, the queue is run, [onNext]
    is called and then [onCompleted], once, and [onError] is not called;
    when the normalizer throws on the data, nothing is committed, [onError]
    is called once with what was thrown and [onCompleted] is not called;
    when the handle was disposed before, neither outcome changes the world:
    no commit, no [onNext], no [onCompleted], no [onError]. *)
Theorem subscription_terminal_callbacks
    (X : Collaborators) (cacheConfig : option CacheConfig)
    (onCompleted onError onNext : option nat) (operation : OperationSelector)
    (w0 : World) :
  let s :=
    fst (RelayStaticEnvironment.sendQuerySubscription
           (queryConfig cacheConfig onCompleted onError onNext operation) w0) in
  let selector := rootSelector X (op_node operation) (op_variables operation) in
  (forall error w,
     RelayNetwork.subscription_settle X s (Rejected error) w =
     {| publishQueue := publishQueue w; store := store w;
        log := log w ++ notified onError EvOnError error |}) /\
  (forall d errs w,
     let w' :=
       RelayNetwork.subscription_settle X s
         (Resolved {| data := Some d; errors := errs |}) w in
     match normalizeRelayPayload X selector d strippedNulls with
     | Return relayPayload =>
         log w' =
           log w ++ warned (op_node operation) (op_variables operation) errs ++
           [EvNormalize selector d strippedNulls;
            EvCommitPayload (op_fragment operation) relayPayload None; EvRun] ++
           notified onNext EvOnNext relayPayload ++
           notified onCompleted (fun r (_ : unit) => EvOnCompleted r None) tt /\
         List.filter isOnError (skipn (length (log w)) (log w')) = [] /\
         List.filter isOnCompleted (skipn (length (log w)) (log w')) =
           notified onCompleted (fun r (_ : unit) => EvOnCompleted r None) tt /\
         publishQueue w' =
           fst (RelayPublishQueue.run
                  (RelayPublishQueue.commitPayload (op_fragment operation)
                     relayPayload None (publishQueue w))) /\
         store w' =
           snd (RelayPublishQueue.run
                  (RelayPublishQueue.commitPayload (op_fragment operation)
                     relayPayload None (publishQueue w)))
     | Throw err =>
         w' =
           {| publishQueue := publishQueue w; store := store w;
              log :=
                log w ++
                warned (op_node operation) (op_variables operation) errs ++
                [EvNormalize selector d strippedNulls] ++
                notified onError EvOnError err |} /\
         List.filter isOnError (skipn (length (log w)) (log w')) =
           notified onError EvOnError err /\
         List.filter isOnCompleted (skipn (length (log w)) (log w')) = []
     end) /\
  (forall fetched w,
     RelayNetwork.subscription_settle X
       (RelayNetwork.subscription_dispose s) fetched w = w).
Proof.
  intros s selector. split; [|split].
  - intros error w. unfold RelayNetwork.subscription_settle, outcome. cbn.
    rewrite MutationFacts.notify_error. reflexivity.
  - intros d errs w w'. unfold w', s.
    rewrite ResponseFacts.subscription_data. fold selector.
    destruct (normalizeRelayPayload X selector d strippedNulls)
      as [relayPayload|err]; cbn [log publishQueue store].
    + split; [reflexivity|].
      rewrite skipn_app, skipn_all, Nat.sub_diag. cbn [skipn app].
      split; [destruct errs as [[|e es]|], onNext, onCompleted; reflexivity|].
      split; [destruct errs as [[|e es]|], onNext, onCompleted; reflexivity|].
      split; reflexivity.
    + split; [reflexivity|].
      rewrite skipn_app, skipn_all, Nat.sub_diag. cbn [skipn app].
      split; destruct errs as [[|e es]|], onError; reflexivity.
  - intros [payload|error] w; reflexivity.
Qed.

(** C9. [RelayNetwork] normalizes the data of a response with
    [{handleStrippedNulls: true}] and completes as that call does;
    [commitPayload] of the environment normalizes with no options argument,
    commits what that call returns and runs the queue, and commits nothing
    when that call throws: for the same selector and data the normalizer
    is invoked with different options on the two paths. *)
Theorem normalizer_options_split
    (X : Collaborators) (operation : ConcreteBatch) (vars : Variables)
    (d : PayloadData) (errs : option (list PayloadError)) (w : World) :
  let selector := rootSelector X operation vars in
  let network :=
    RelayNetwork.normalizePayload X operation vars
      {| data := Some d; errors := errs |} w in
  let direct := RelayStaticEnvironment.commitPayload X selector d w in
  fst network = normalizeRelayPayload X selector d strippedNulls /\
  List.filter isNormalize (skipn (length (log w)) (log (snd network))) =
    [EvNormalize selector d (Some {| handleStrippedNulls := true |})] /\
  skipn (length (log w)) (log (snd direct)) =
    EvNormalize selector d None ::
    match normalizeRelayPayload X selector d None with
    | Return relayPayload =>
        [EvCommitPayload selector relayPayload None; EvRun]
    | Throw _ => []
    end /\
  fst direct =
    match normalizeRelayPayload X selector d None with
    | Return _ => Return tt
    | Throw err => Throw err
    end /\
  Some {| handleStrippedNulls := true |} <> @None NormalizationOptions.
Proof.
  intros selector network direct.
  split; [reflexivity|]. split; [|split; [|split; [|discriminate]]].
  - subst network. rewrite ResponseFacts.normalizePayload_data.
    cbn [snd log].
    rewrite skipn_app, skipn_all, Nat.sub_diag. cbn [skipn app].
    destruct errs as [[|e es]|]; reflexivity.
  - subst direct. unfold RelayStaticEnvironment.commitPayload.
    destruct (normalizeRelayPayload X selector d None) as [relayPayload|err];
      cbn; rewrite <- ?app_assoc, skipn_app, skipn_all, Nat.sub_diag;
      reflexivity.
  - subst direct. unfold RelayStaticEnvironment.commitPayload.
    destruct (normalizeRelayPayload X selector d None); reflexivity.
Qed.

(** C10. [commitRelayStaticMutation]: when the mutation succeeds and
    [config.onCompleted] is given, the environment is asked to look up
    [operation.fragment] after the payload was committed and the queue run,
    and the callback receives the data of that snapshot, read from the
    store as it is then; when [config.onCompleted] is absent nothing
    follows [run()], in particular no lookup. *)
Theorem commitMutation_onCompleted_reads_store
    (X : Collaborators) (mutation : GraphQLTaggedNode) (vars : Variables)
    (onCompleted onError : option nat) (optimistic : option StoreUpdater)
    (updater : option SelectorStoreUpdater) (payload : RelayResponsePayload)
    (w0 w : World) :
  let config := mutationConfig mutation vars onCompleted onError optimistic updater in
  let operation := createOperationSelector X (getOperation X mutation) vars in
  let m := fst (commitRelayStaticMutation X config w0) in
  let w' := RelayStaticEnvironment.sendMutation_settle m (Resolved payload) w in
  let committed :=
    publishQueue_run
      (publishQueue_commitPayload (op_fragment operation) payload updater
         (RelayStaticEnvironment.revertIfSet optimistic w)) in
  store w' = store committed /\
  publishQueue w' = publishQueue committed /\
  log w' =
    log committed ++
    match onCompleted with
    | Some r =>
        [EvLookup (op_fragment operation);
         EvOnCompleted r
           (snapshot_data (store_lookup X (store committed) (op_fragment operation)))]
    | None => []
    end.
Proof.
  intros config operation m w' committed.
  subst w' m config. cbn. unfold seq, emit.
  destruct onCompleted; cbn.
  - rewrite <- !app_assoc. auto.
  - rewrite app_nil_r. auto.
Qed.

(** *** Responses without data *)

(** A response without data writes nothing: [normalizePayload] throws an
    error whose [source] carries the errors list as received, the
    operation and the variables, and leaves the world as it is; the
    placeholder stands in the message when the errors list is absent. *)
Lemma no_data_error_source X operation vars errs w :
  RelayNetwork.normalizePayload X operation vars
    {| data := None; errors := errs |} w =
  (Throw (RelayNetwork.noDataError operation vars errs), w) /\
  error_source (RelayNetwork.noDataError operation vars errs) =
    Some {| src_errors := errs; src_operation := operation;
            src_variables := vars |} /\
  (errs = None ->
   error_args (RelayNetwork.noDataError operation vars errs) =
     [name operation; "(No errors)"%string]).
Proof.
  split; [reflexivity|]. split; [reflexivity|]. intros ->. reflexivity.
Qed.

(** C6, at the response [{data: null, errors: []}]: the world is unchanged
    and the error carries the empty list, the operation and the variables
    in [source], but the detail put into the message is the empty string,
    not the placeholder: an empty array is truthy in the test
    [errors ? ... : '(No errors)']. *)
Theorem normalizePayload_no_data_empty_errors
    (X : Collaborators) (operation : ConcreteBatch) (vars : Variables)
    (w : World) :
  exists err,
    RelayNetwork.normalizePayload X operation vars
      {| data := None; errors := Some [] |} w = (Throw err, w) /\
    error_source err =
      Some {| src_errors := Some []; src_operation := operation;
              src_variables := vars |} /\
    error_args err = [name operation; ""%string] /\
    error_args err <> [name operation; "(No errors)"%string].
Proof.
  eexists. split; [reflexivity|]. split; [reflexivity|].
  split; [reflexivity|]. cbn. intros H. discriminate H.
Qed.

(** ** Further properties of the runtime *)

Module LogFacts.

Lemma since_app w w' evs : log w' = log w ++ evs -> since w w' = evs.
Proof.
  intros H. unfold since. rewrite H, skipn_app, skipn_all, Nat.sub_diag.
  reflexivity.
Qed.

End LogFacts.

(** X1. A mutation disposed before its response: [dispose()] calls
    [revertUpdate] and [run()] when an optimistic updater was given and
    nothing otherwise; whatever the promise then settles with, the handlers
    leave the world as it is, whichever callbacks were passed; counted
    from the transport's own response the queue and the store are
    unchanged and no queue call and no callback is logged. *)
Theorem sendMutation_disposed_suppressed
    (X : Collaborators) (args : RelayStaticEnvironment.MutationArgs)
    (w0 : World) :
  let m := fst (RelayStaticEnvironment.sendMutation args w0) in
  (forall w,
     log (snd (RelayStaticEnvironment.dispose m w)) =
     log w ++
       rolledBack (RelayStaticEnvironment.mutation_optimisticUpdater args)) /\
  (forall w settled w',
     RelayStaticEnvironment.sendMutation_settle
       (fst (RelayStaticEnvironment.dispose m w)) settled w' = w') /\
  (forall w fetched w',
     let w'' :=
       RelayStaticEnvironment.sendMutation_fetched X
         (fst (RelayStaticEnvironment.dispose m w)) fetched w' in
     publishQueue w'' = publishQueue w' /\ store w'' = store w' /\
     List.filter (fun e => isQueueCall e || isCallback e) (log w'') =
     List.filter (fun e => isQueueCall e || isCallback e) (log w')).
Proof.
  intros m. split; [|split].
  - intros w. subst m. cbn.
    destruct (RelayStaticEnvironment.mutation_optimisticUpdater args); cbn.
    + rewrite <- app_assoc. reflexivity.
    + rewrite app_nil_r. reflexivity.
  - intros w [payload|error] w'; reflexivity.
  - intros w [[[d|] errs]|error] w';
      unfold RelayStaticEnvironment.sendMutation_fetched,
        RelayNetwork.request_resume, RelayNetwork.normalizePayload;
      cbn [data errors].
    + destruct (normalizeRelayPayload X _ d _) as [relayPayload|err];
        destruct errs as [[|e es]|]; cbn;
        rewrite ?List.filter_app; cbn; rewrite ?app_nil_r; auto.
    + cbn. auto.
    + cbn. auto.
Qed.

(** X2. [sendMutation] applies the optimistic update and runs the queue
    before it calls the transport, and it always calls the transport with
    [{force: true}], on the operation's node and variables. *)
Theorem sendMutation_applies_before_fetch
    (args : RelayStaticEnvironment.MutationArgs) (w0 : World) :
  let operation := RelayStaticEnvironment.mutation_operation args in
  log (snd (RelayStaticEnvironment.sendMutation args w0)) =
  log w0 ++
    applied (RelayStaticEnvironment.mutation_optimisticUpdater args) ++
    [EvFetch (op_node operation) (op_variables operation)
       (Some {| force := true |})].
Proof.
  cbn. destruct (RelayStaticEnvironment.mutation_optimisticUpdater args); cbn.
  - rewrite <- !app_assoc. reflexivity.
  - reflexivity.
Qed.

(** X3. A mutation without optimistic updater: sending it touches neither
    the queue nor the store; when the transport fails the handler still
    calls [run()] before [onError], with nothing reverted; [dispose()]
    makes no call at all. *)
Theorem sendMutation_without_optimistic_updater
    (onCompleted onError : option nat) (operation : OperationSelector)
    (updater : option SelectorStoreUpdater) (error : Error) (w0 : World) :
  let args := mutationArgs onCompleted onError operation None updater in
  let m := fst (RelayStaticEnvironment.sendMutation args w0) in
  let w1 := snd (RelayStaticEnvironment.sendMutation args w0) in
  publishQueue w1 = publishQueue w0 /\ store w1 = store w0 /\
  (forall w,
     log (RelayStaticEnvironment.sendMutation_settle m (Rejected error) w) =
     log w ++ [EvRun] ++ notified onError EvOnError error) /\
  (forall w, snd (RelayStaticEnvironment.dispose m w) = w).
Proof.
  intros args m w1. split; [reflexivity|]. split; [reflexivity|]. split.
  - intros w.
    rewrite (MutationFacts.settle_rejected m error w onCompleted onError
               operation None updater eq_refl eq_refl).
    cbn. rewrite <- app_assoc. reflexivity.
  - intros w. reflexivity.
Qed.

(** X4. A query that fails: when the transport rejects, or answers
    without data, [sendQuery] calls [onError] with the transport's error,
    respectively with the error built for the missing data, and does
    nothing else: the queue, the store and the rest of the log are as
    before. *)
Theorem sendQuery_failure_reports_only
    (X : Collaborators) (cacheConfig : option CacheConfig)
    (onCompleted onError onNext : option nat) (operation : OperationSelector)
    (w0 : World) :
  let q :=
    fst (RelayStaticEnvironment.sendQuery
           (queryConfig cacheConfig onCompleted onError onNext operation) w0) in
  (forall error w,
     RelayStaticEnvironment.sendQuery_fetched X q (Rejected error) w =
     {| publishQueue := publishQueue w; store := store w;
        log := log w ++ notified onError EvOnError error |}) /\
  (forall errs w,
     RelayStaticEnvironment.sendQuery_fetched X q
       (Resolved {| data := None; errors := errs |}) w =
     {| publishQueue := publishQueue w; store := store w;
        log := log w ++
          notified onError EvOnError
            (RelayNetwork.noDataError (op_node operation)
               (op_variables operation) errs) |}).
Proof.
  intros q. split.
  - intros error w.
    apply (ResponseFacts.query_rejected q error w cacheConfig onCompleted
             onError onNext operation eq_refl eq_refl).
  - intros errs w.
    apply (ResponseFacts.query_rejected q _ w cacheConfig onCompleted
             onError onNext operation eq_refl eq_refl).
Qed.

(** X5. A query whose response has data, whatever its [errors] list.
    When the normalizer returns, [sendQuery] commits the normalized payload
    to the queue against [operation.fragment] without updater and runs the
    queue, so that the store shows what the queue publishes, then calls
    [onNext] with the payload and [onCompleted]; [onError] is not called.
    When the normalizer throws, the promise of [request] rejects with what
    was thrown: [onError] is called with it and nothing is committed. *)
Theorem sendQuery_success_path
    (X : Collaborators) (cacheConfig : option CacheConfig)
    (onCompleted onError onNext : option nat) (operation : OperationSelector)
    (d : PayloadData) (errs : option (list PayloadError)) (w0 w : World) :
  let q :=
    fst (RelayStaticEnvironment.sendQuery
           (queryConfig cacheConfig onCompleted onError onNext operation) w0) in
  let selector := rootSelector X (op_node operation) (op_variables operation) in
  let w' :=
    RelayStaticEnvironment.sendQuery_fetched X q
      (Resolved {| data := Some d; errors := errs |}) w in
  match normalizeRelayPayload X selector d strippedNulls with
  | Return relayPayload =>
      publishQueue w' =
        fst (RelayPublishQueue.run
               (RelayPublishQueue.commitPayload (op_fragment operation)
                  relayPayload None (publishQueue w))) /\
      store w' =
        snd (RelayPublishQueue.run
               (RelayPublishQueue.commitPayload (op_fragment operation)
                  relayPayload None (publishQueue w))) /\
      since w w' =
        warned (op_node operation) (op_variables operation) errs ++
        [EvNormalize selector d strippedNulls;
         EvCommitPayload (op_fragment operation) relayPayload None; EvRun] ++
        notified onNext EvOnNext relayPayload ++
        notified onCompleted (fun r (_ : unit) => EvOnCompleted r None) tt /\
      List.filter isOnError (since w w') = []
  | Throw err =>
      w' =
        {| publishQueue := publishQueue w; store := store w;
           log :=
             log w ++
             warned (op_node operation) (op_variables operation) errs ++
             [EvNormalize selector d strippedNulls] ++
             notified onError EvOnError err |}
  end.
Proof.
  intros q selector w'. unfold w'.
  rewrite ResponseFacts.query_fetched_data.
  cbn [q fst RelayStaticEnvironment.sendQuery
       RelayStaticEnvironment.query_config queryConfig
       RelayStaticEnvironment.query_operation].
  unfold requestSettled. fold selector.
  destruct (normalizeRelayPayload X selector d strippedNulls)
    as [relayPayload|err].
  - rewrite (ResponseFacts.query_resolved q relayPayload _ cacheConfig
               onCompleted onError onNext operation eq_refl eq_refl).
    cbn [publishQueue store log].
    split; [reflexivity|]. split; [reflexivity|].
    assert (Hlog : forall evs,
      since w {| publishQueue := fst (RelayPublishQueue.run
                   (RelayPublishQueue.commitPayload (op_fragment operation)
                      relayPayload None (publishQueue w)));
                 store := snd (RelayPublishQueue.run
                   (RelayPublishQueue.commitPayload (op_fragment operation)
                      relayPayload None (publishQueue w)));
                 log := (log w ++
                         warned (op_node operation) (op_variables operation)
                           errs ++
                         [EvNormalize selector d strippedNulls]) ++ evs |} =
      warned (op_node operation) (op_variables operation) errs ++
      [EvNormalize selector d strippedNulls] ++ evs).
    { intros evs. apply LogFacts.since_app. cbn [log].
      rewrite <- !app_assoc. reflexivity. }
    rewrite Hlog. split; [reflexivity|].
    destruct errs as [[|e es]|], onNext, onCompleted; reflexivity.
  - rewrite (ResponseFacts.query_rejected q err _ cacheConfig
               onCompleted onError onNext operation eq_refl eq_refl).
    cbn [publishQueue store log]. rewrite <- !app_assoc. reflexivity.
Qed.

(** X6. A subscription whose transport answers without data: the error
    thrown by [normalizePayload] is caught and handed to [onError]; there
    is no commit, no [run()], no [onNext] and no [onCompleted]. *)
Theorem subscription_no_data_reports_only
    (X : Collaborators) (cacheConfig : option CacheConfig)
    (onCompleted onError onNext : option nat) (operation : OperationSelector)
    (errs : option (list PayloadError)) (w0 w : World) :
  let s :=
    fst (RelayStaticEnvironment.sendQuerySubscription
           (queryConfig cacheConfig onCompleted onError onNext operation) w0) in
  RelayNetwork.subscription_settle X s
    (Resolved {| data := None; errors := errs |}) w =
  {| publishQueue := publishQueue w; store := store w;
     log := log w ++
       notified onError EvOnError
         (RelayNetwork.noDataError (op_node operation)
            (op_variables operation) errs) |}.
Proof.
  intros s. unfold RelayNetwork.subscription_settle, outcome,
    RelayNetwork.subscription_fulfilled. cbn.
  rewrite MutationFacts.notify_error. reflexivity.
Qed.

(** X7. [commitRelayStaticMutation] sends the operation made of
    [getOperation(config.mutation)] and [config.variables], with the
    caller's optimistic updater applied first and the transport forced;
    when the transport fails the handler reverts that updater, runs the
    queue and calls [config.onError]: the store is not looked up and
    [config.onCompleted] is not called. *)
Theorem commitMutation_failure_path
    (X : Collaborators) (mutation : GraphQLTaggedNode) (vars : Variables)
    (onCompleted onError : option nat) (optimistic : option StoreUpdater)
    (updater : option SelectorStoreUpdater) (error : Error) (w0 w : World) :
  let config := mutationConfig mutation vars onCompleted onError optimistic updater in
  let operation := createOperationSelector X (getOperation X mutation) vars in
  let sent := commitRelayStaticMutation X config w0 in
  let w' :=
    RelayStaticEnvironment.sendMutation_settle (fst sent) (Rejected error) w in
  since w0 (snd sent) =
    applied optimistic ++
    [EvFetch (op_node operation) (op_variables operation)
       (Some {| force := true |})] /\
  since w w' =
    reverted optimistic ++ [EvRun] ++ notified onError EvOnError error /\
  List.filter (fun e => isLookup e || isOnCompleted e) (since w w') = [].
Proof.
  intros config operation sent w'.
  assert (Hlog : since w w' =
    reverted optimistic ++ [EvRun] ++ notified onError EvOnError error).
  { apply LogFacts.since_app. subst w' sent config.
    unfold RelayStaticEnvironment.sendMutation_settle, outcome,
      RelayStaticEnvironment.sendMutation_catch, andThen, returning.
    cbn [fst commitRelayStaticMutation RelayStaticEnvironment.sendMutation
         RelayStaticEnvironment.isDisposed
         RelayStaticEnvironment.optimisticUpdater
         RelayStaticEnvironment.mutation_args
         RelayStaticEnvironment.mutation_onError
         RelayStaticEnvironment.mutation_optimisticUpdater
         mutationConfig config_onError config_optimisticUpdater].
    rewrite MutationFacts.notify_error. cbn.
    rewrite MutationFacts.revertIfSet_log, <- !app_assoc. reflexivity. }
  split; [|split; [exact Hlog|]].
  - apply LogFacts.since_app. subst sent config. cbn.
    destruct optimistic; cbn; rewrite <- ?app_assoc; reflexivity.
  - rewrite Hlog. destruct optimistic, onError; reflexivity.
Qed.

(** X8. What [normalizePayload] does with any response: it never changes
    the queue or the store; without data it throws the error built for the
    missing data and logs nothing; with data it warns when the errors list
    is a non-empty array, and then once, calls the normalizer once with
    stripped-null handling, and completes as the normalizer does, so that
    it throws exactly when [data] is null or the normalizer throws on the
    data. *)
Theorem normalizePayload_outcome
    (X : Collaborators) (operation : ConcreteBatch) (vars : Variables)
    (payload : QueryPayload) (w : World) :
  let result := RelayNetwork.normalizePayload X operation vars payload w in
  let selector := rootSelector X operation vars in
  publishQueue (snd result) = publishQueue w /\
  store (snd result) = store w /\
  fst result =
    match data payload with
    | Some d => normalizeRelayPayload X selector d strippedNulls
    | None => Throw (RelayNetwork.noDataError operation vars (errors payload))
    end /\
  ((exists err, fst result = Throw err) <->
   data payload = None \/
   exists d err,
     data payload = Some d /\
     normalizeRelayPayload X selector d strippedNulls = Throw err) /\
  (data payload = None -> snd result = w) /\
  since w (snd result) =
    match data payload with
    | Some d =>
        warned operation vars (errors payload) ++
        [EvNormalize selector d strippedNulls]
    | None => []
    end /\
  List.filter isWarning (since w (snd result)) =
    match data payload with
    | Some _ => warned operation vars (errors payload)
    | None => []
    end.
Proof.
  intros result selector. subst result.
  destruct payload as [[d|] errs].
  - rewrite ResponseFacts.normalizePayload_data. fold selector.
    cbn [fst snd data errors publishQueue store].
    split; [reflexivity|]. split; [reflexivity|]. split; [reflexivity|].
    split.
    { split.
      - intros [err Herr]. right. exists d, err. auto.
      - intros [Hnone|(d' & err & Hd & Herr)]; [discriminate Hnone|].
        injection Hd as <-. exists err. exact Herr. }
    split; [discriminate|].
    assert (Hsince :
      since w {| publishQueue := publishQueue w; store := store w;
                 log := log w ++ warned operation vars errs ++
                        [EvNormalize selector d strippedNulls] |} =
      warned operation vars errs ++ [EvNormalize selector d strippedNulls])
      by (apply LogFacts.since_app; reflexivity).
    rewrite Hsince. split; [reflexivity|].
    destruct errs as [[|e es]|]; reflexivity.
  - cbn.
    split; [reflexivity|]. split; [reflexivity|]. split; [reflexivity|].
    split; [split; eauto|]. split; [reflexivity|].
    unfold since. rewrite skipn_all. split; reflexivity.
Qed.

(** The promise [request] returns rejects when the transport rejects,
    with the same reason, when it answers without data, with the error
    built for it, and when the normalizer throws, with what it threw;
    otherwise it resolves with the payload normalized against the root
    selector with stripped-null handling. *)
Lemma request_settles
    (X : Collaborators) (operation : ConcreteBatch) (vars : Variables)
    (fetched : Settled QueryPayload) (w : World) :
  fst (RelayNetwork.request_resume X operation vars fetched w) =
  match fetched with
  | Rejected error => Rejected error
  | Resolved payload =>
      match data payload with
      | None =>
          Rejected (RelayNetwork.noDataError operation vars (errors payload))
      | Some d => requestSettled X operation vars d
      end
  end.
Proof.
  destruct fetched as [[[d|] errs]|error]; try reflexivity.
  rewrite ResponseFacts.request_resume_data. reflexivity.
Qed.

(** ** Properties of RelayConnectionTransform *)

Module ConnectionFacts.
Import GraphQL RelayIR RelayConnectionTransform.

Lemma bind_Return {A B : Type} (f : A -> Completion B) (c : Completion A) b :
  (c ≫= f) = Return b -> exists a, c = Return a /\ f a = Return b.
Proof. destruct c as [a|e]; cbn; [eauto|discriminate]. Qed.

Lemma invariant_Return condition format args :
  invariant condition format args = Return tt -> condition = true.
Proof. destruct condition; [reflexivity|discriminate]. Qed.

Lemma lacks_false test field :
  lacks test field = false -> exists type, field = Some type /\ test type = true.
Proof.
  destruct field as [type|]; cbn; [|discriminate].
  destruct (test type) eqn:Htest; [eauto|discriminate].
Qed.

Lemma isScalar_true t : isScalar t = true -> exists name, t = GraphQLScalarType name.
Proof. destruct t; try discriminate. eauto. Qed.

Lemma isObject_true t :
  isObject t = true -> exists name fields, t = GraphQLObjectType name fields.
Proof. destruct t; try discriminate. eauto. Qed.

Lemma isList_true t : isList t = true -> exists ofType, t = GraphQLList ofType.
Proof. destruct t; try discriminate. eauto. Qed.

Lemma guard_Return (condition : bool) format args :
  (if condition then invariant false format args else Return tt) = Return tt ->
  condition = false.
Proof. destruct condition; [discriminate|reflexivity]. Qed.

(** What a type that passes [validateConnectionType] looks like. *)
Lemma accepted_shape I definitionName type :
  validateConnectionType I definitionName type = Return tt ->
  exists typeWithFields typeFields edges ofType edgeName edgeFields node
         cursorName pageInfoName pageInfoOwn pageInfoType pageInfoFields,
    assertTypeWithFields I type = Return typeWithFields /\
    getFields typeWithFields = Return typeFields /\
    typeFields !! EDGES I = Some edges /\
    getNullableType I edges = GraphQLList ofType /\
    getNullableType I ofType = GraphQLObjectType edgeName edgeFields /\
    edgeFields !! NODE I = Some node /\
    isInterfaceUnionOrObject node = true /\
    edgeFields !! CURSOR I = Some (GraphQLScalarType cursorName) /\
    typeFields !! PAGE_INFO I =
      Some (GraphQLObjectType pageInfoName pageInfoOwn) /\
    assertTypeWithFields I (GraphQLObjectType pageInfoName pageInfoOwn) =
      Return pageInfoType /\
    getFields pageInfoType = Return pageInfoFields /\
    Forall (fun fieldName =>
              exists name,
                pageInfoFields !! fieldName = Some (GraphQLScalarType name))
      [END_CURSOR I; HAS_NEXT_PAGE I; HAS_PREV_PAGE I; START_CURSOR I].
Proof.
  unfold validateConnectionType. intros H.
  apply bind_Return in H as (typeWithFields & Hassert & H).
  apply bind_Return in H as (typeFields & Hfields & H).
  apply bind_Return in H as ([] & Hedges & H).
  apply invariant_Return in Hedges.
  destruct (typeFields !! EDGES I) as [edges|] eqn:Hlookup; [|discriminate].
  apply bind_Return in H as ([] & Hlist & H).
  apply invariant_Return, isList_true in Hlist as [ofType HofType].
  rewrite HofType in H.
  apply bind_Return in H as ([] & Hobject & H).
  apply invariant_Return, isObject_true in Hobject
    as (edgeName & edgeFields & HedgeType).
  rewrite HedgeType in H. cbn [getFields] in H.
  apply bind_Return in H as (edgeFields' & Heq & H).
  injection Heq as <-.
  apply bind_Return in H as ([] & Hnode & H).
  apply guard_Return, lacks_false in Hnode as (node & Hnode & HnodeType).
  apply bind_Return in H as ([] & Hcursor & H).
  apply guard_Return, lacks_false in Hcursor as (cursor & Hcursor & HcursorType).
  apply isScalar_true in HcursorType as [cursorName ->].
  apply bind_Return in H as ([] & HpageInfo & H).
  apply guard_Return, lacks_false in HpageInfo
    as (pageInfo & HpageInfo & HpageInfoType).
  apply isObject_true in HpageInfoType as (pageInfoName & pageInfoOwn & ->).
  rewrite HpageInfo in H.
  apply bind_Return in H as (pageInfoType & HassertPage & H).
  cbn [forEach] in H.
  apply bind_Return in H as ([] & H1 & H).
  apply bind_Return in H1 as (pageInfoFields & HpageFields & H1).
  rewrite HpageFields in H. cbn in H.
  apply bind_Return in H as ([] & H2 & H).
  apply bind_Return in H as ([] & H3 & H).
  apply bind_Return in H as ([] & H4 & _).
  apply guard_Return, lacks_false in H1 as (t1 & Hl1 & Ht1).
  apply guard_Return, lacks_false in H2 as (t2 & Hl2 & Ht2).
  apply guard_Return, lacks_false in H3 as (t3 & Hl3 & Ht3).
  apply guard_Return, lacks_false in H4 as (t4 & Hl4 & Ht4).
  apply isScalar_true in Ht1 as [n1 ->], Ht2 as [n2 ->], Ht3 as [n3 ->],
    Ht4 as [n4 ->].
  exists typeWithFields, typeFields, edges, ofType, edgeName, edgeFields, node,
    cursorName, pageInfoName, pageInfoOwn, pageInfoType, pageInfoFields.
  repeat (split; [assumption || reflexivity|]).
  repeat constructor; eauto.
Qed.

(** Conversely, a type of that shape passes. *)
Lemma shape_accepted I definitionName type
    typeWithFields typeFields edges ofType edgeName edgeFields node
    cursorName pageInfoName pageInfoOwn pageInfoType pageInfoFields :
  assertTypeWithFields I type = Return typeWithFields ->
  getFields typeWithFields = Return typeFields ->
  typeFields !! EDGES I = Some edges ->
  getNullableType I edges = GraphQLList ofType ->
  getNullableType I ofType = GraphQLObjectType edgeName edgeFields ->
  edgeFields !! NODE I = Some node ->
  isInterfaceUnionOrObject node = true ->
  edgeFields !! CURSOR I = Some (GraphQLScalarType cursorName) ->
  typeFields !! PAGE_INFO I = Some (GraphQLObjectType pageInfoName pageInfoOwn) ->
  assertTypeWithFields I (GraphQLObjectType pageInfoName pageInfoOwn) =
    Return pageInfoType ->
  getFields pageInfoType = Return pageInfoFields ->
  Forall (fun fieldName =>
            exists name,
              pageInfoFields !! fieldName = Some (GraphQLScalarType name))
    [END_CURSOR I; HAS_NEXT_PAGE I; HAS_PREV_PAGE I; START_CURSOR I] ->
  validateConnectionType I definitionName type = Return tt.
Proof.
  intros Hassert Hfields Hedges Hlist Hobject Hnode HnodeType Hcursor
    HpageInfo HassertPage HpageFields Hscalars.
  unfold validateConnectionType.
  rewrite Hassert; cbn. rewrite Hfields; cbn. rewrite Hedges; cbn.
  rewrite Hlist; cbn. rewrite Hobject; cbn.
  rewrite Hnode; cbn. rewrite HnodeType; cbn.
  rewrite Hcursor; cbn. rewrite HpageInfo; cbn.
  rewrite HassertPage; cbn. rewrite HpageFields; cbn.
  inversion Hscalars as [|? ? [n1 H1] Hs1]; subst.
  inversion Hs1 as [|? ? [n2 H2] Hs2]; subst.
  inversion Hs2 as [|? ? [n3 H3] Hs3]; subst.
  inversion Hs3 as [|? ? [n4 H4] _]; subst.
  rewrite H1; cbn. rewrite H2; cbn. rewrite H3; cbn. rewrite H4; cbn.
  reflexivity.
Qed.

Lemma find_isConnection_none I directives :
  Forall (fun d => directive_name d <> CONNECTION I) directives ->
  List.find (isConnection I) directives = None.
Proof.
  induction 1 as [|d ds Hd _ IH]; cbn; [reflexivity|].
  unfold isConnection at 1.
  destruct (String.eqb_spec (directive_name d) (CONNECTION I)); [contradiction|].
  exact IH.
Qed.

Lemma find_isConnection_some I directives d :
  In d directives -> directive_name d = CONNECTION I ->
  exists d', List.find (isConnection I) directives = Some d'.
Proof.
  intros Hin Hname.
  destruct (List.find (isConnection I) directives) as [d'|] eqn:Hfind;
    [eauto|].
  pose proof (find_none _ _ Hfind d Hin) as Hnot.
  unfold isConnection in Hnot. rewrite Hname, String.eqb_refl in Hnot.
  discriminate.
Qed.

Lemma truthy_true s :
  truthy s = true -> exists name, s = Some name /\ name <> ""%string.
Proof.
  destruct s as [name|]; cbn; [|discriminate].
  destruct (String.eqb_spec name ""); [discriminate|eauto].
Qed.

(** What held on the way when [visitLinkedField] returns for a field that
    carries the directive. *)
Lemma visit_inversion I this field options connectionDirective result :
  List.find (isConnection I) (field_directives field) = Some connectionDirective ->
  visitLinkedField I this field options = Return result ->
  exists name selections,
    opt_definitionName options = Some name /\ name <> ""%string /\
    validateConnectionSelection I name (traverse this field options) =
      Return tt /\
    validateConnectionType I name (field_type (traverse this field options)) =
      Return tt /\
    isStringOrUndefined
      (getRelayLiteralArgumentValues I (directive_args connectionDirective)
         !! "handle"%string) = true /\
    (if opt_generateRequisiteFields options
     then exists fragment,
            generateConnectionFragment I this
              (field_type (traverse this field options)) = Return fragment /\
            selections =
              field_selections (traverse this field options) ++
              [ofInlineFragment fragment]
     else selections = field_selections (traverse this field options)) /\
    result =
      rebuilt I (traverse this field options) selections
        (handleOrDefault I
           (getRelayLiteralArgumentValues I (directive_args connectionDirective)
              !! "handle"%string)).
Proof.
  intros Hfind H. unfold visitLinkedField in H. rewrite Hfind in H.
  apply bind_Return in H as ([] & Hname & H).
  apply invariant_Return, truthy_true in Hname as (name & Hname & Hne).
  rewrite Hname in H. cbn [default] in H.
  apply bind_Return in H as ([] & Hselection & H).
  apply bind_Return in H as ([] & Htype & H).
  apply bind_Return in H as ([] & Hhandle & H).
  apply invariant_Return in Hhandle.
  apply bind_Return in H as (transformed' & Hgen & H).
  injection H as <-.
  exists name, (field_selections transformed').
  repeat (split; [assumption|]).
  destruct (opt_generateRequisiteFields options).
  - apply bind_Return in Hgen as (fragment & Hfragment & Hgen).
    injection Hgen as <-. split; [eauto|].
    unfold rebuilt. cbn. destruct (field_handles _); reflexivity.
  - injection Hgen as <-. split; [reflexivity|].
    unfold rebuilt. cbn. destruct (field_handles _); reflexivity.
Qed.

End ConnectionFacts.

(** X10. [validateConnectionSelection] accepts a field exactly when one of
    its arguments is named [FIRST] or [LAST] and one of its own selections
    is a linked field named [EDGES]. *)
Theorem validateConnectionSelection_accepts
    (I : RelayConnectionTransform.Imports) (definitionName : string)
    (field : RelayIR.LinkedField) :
  RelayConnectionTransform.validateConnectionSelection I definitionName field =
    Return tt <->
  (exists arg,
     In arg (RelayIR.field_args field) /\
     (RelayIR.arg_name arg = RelayConnectionTransform.FIRST I \/
      RelayIR.arg_name arg = RelayConnectionTransform.LAST I)) /\
  (exists alias args directives handles metadata selections type,
     In (RelayIR.LinkedFieldSel alias args directives handles metadata
           (RelayConnectionTransform.EDGES I) selections type)
        (RelayIR.field_selections field)).
Proof.
  unfold RelayConnectionTransform.validateConnectionSelection. split.
  - intros H.
    apply ConnectionFacts.bind_Return in H as ([] & Hargs & Hedges).
    apply ConnectionFacts.invariant_Return, existsb_exists in Hargs
      as (arg & Harg & Hlimit).
    apply ConnectionFacts.invariant_Return, existsb_exists in Hedges
      as (selection & Hsel & Hname).
    split.
    + exists arg. split; [exact Harg|].
      apply orb_true_iff in Hlimit as [H|H]; apply String.eqb_eq in H; auto.
    + destruct selection; try discriminate.
      apply String.eqb_eq in Hname. subst. eauto 10.
  - intros [(arg & Harg & Hlimit)
            (alias & args & directives & handles & metadata & selections &
             type & Hsel)].
    assert (Hargs : existsb (RelayConnectionTransform.isLimitArgument I)
                      (RelayIR.field_args field) = true).
    { apply existsb_exists. exists arg. split; [exact Harg|].
      unfold RelayConnectionTransform.isLimitArgument.
      apply orb_true_iff.
      destruct Hlimit as [-> | ->]; rewrite String.eqb_refl; auto. }
    assert (Hedges : existsb (RelayConnectionTransform.isEdgesField I)
                       (RelayIR.field_selections field) = true).
    { apply existsb_exists. eexists. split; [exact Hsel|].
      cbn. apply String.eqb_refl. }
    rewrite Hargs, Hedges. reflexivity.
Qed.

(** X11. The [edges] selection has to be a direct selection: a field whose
    selections are wrapped in an inline fragment is rejected with the
    missing-selection error, whatever the fragment contains. *)
Theorem validateConnectionSelection_rejects_wrapped_edges
    (I : RelayConnectionTransform.Imports) (definitionName : string)
    (field : RelayIR.LinkedField) (directives : list RelayIR.Directive)
    (metadata : RelayIR.Metadata) (typeCondition : GraphQL.GraphQLType) :
  existsb (RelayConnectionTransform.isLimitArgument I)
    (RelayIR.field_args field) = true ->
  RelayConnectionTransform.validateConnectionSelection I definitionName
    (RelayConnectionTransform.withSelections field
       [RelayIR.InlineFragmentSel directives metadata
          (RelayIR.field_selections field) typeCondition]) =
  Throw
    {| error_name := "Invariant Violation";
       error_format := RelayConnectionTransform.selectionEdgesFormat;
       error_args :=
         [RelayIR.field_name field;
          GraphQL.toString (RelayIR.field_type field);
          RelayConnectionTransform.EDGES I; definitionName];
       error_source := None |}.
Proof.
  intros Hargs.
  unfold RelayConnectionTransform.validateConnectionSelection. cbn.
  rewrite Hargs. reflexivity.
Qed.

(** The example: [friends(first: 10) { ... on FriendsConnection { edges } }]. *)
Lemma validateConnectionSelection_rejects_wrapped_edges_witness :
  RelayConnectionTransform.validateConnectionSelection Friends.imports
    "FriendsQuery"
    (RelayConnectionTransform.withSelections (Friends.friends [])
       [RelayIR.InlineFragmentSel [] None [Friends.edgesSelection]
          Friends.FriendsConnection]) =
  Throw
    {| error_name := "Invariant Violation";
       error_format := RelayConnectionTransform.selectionEdgesFormat;
       error_args := ["friends"; "FriendsConnection"; "edges"; "FriendsQuery"]%string;
       error_source := None |}.
Proof.
  exact (validateConnectionSelection_rejects_wrapped_edges Friends.imports
           "FriendsQuery" (Friends.friends []) [] None
           Friends.FriendsConnection eq_refl).
Defined.

(** X12. [validateConnectionType] accepts a type exactly when
    [assertTypeWithFields] returns a type with an [EDGES] field whose
    nullable type is a list whose nullable item type is an object type with
    a [NODE] field of interface, union or object type and a [CURSOR] field
    of scalar type, and with a [PAGE_INFO] field of object type that
    [assertTypeWithFields] accepts and that has the four page-info fields,
    all of scalar type.  The types of [NODE], [CURSOR], [PAGE_INFO] and the
    page-info fields are tested as declared, without [getNullableType]. *)
Theorem validateConnectionType_accepts
    (I : RelayConnectionTransform.Imports) (definitionName : string)
    (type : GraphQL.GraphQLType) :
  RelayConnectionTransform.validateConnectionType I definitionName type =
    Return tt <->
  exists typeWithFields typeFields edges ofType edgeName edgeFields node
         cursorName pageInfoName pageInfoOwn pageInfoType pageInfoFields,
    RelayConnectionTransform.assertTypeWithFields I type =
      Return typeWithFields /\
    GraphQL.getFields typeWithFields = Return typeFields /\
    typeFields !! RelayConnectionTransform.EDGES I = Some edges /\
    RelayConnectionTransform.getNullableType I edges =
      GraphQL.GraphQLList ofType /\
    RelayConnectionTransform.getNullableType I ofType =
      GraphQL.GraphQLObjectType edgeName edgeFields /\
    edgeFields !! RelayConnectionTransform.NODE I = Some node /\
    RelayConnectionTransform.isInterfaceUnionOrObject node = true /\
    edgeFields !! RelayConnectionTransform.CURSOR I =
      Some (GraphQL.GraphQLScalarType cursorName) /\
    typeFields !! RelayConnectionTransform.PAGE_INFO I =
      Some (GraphQL.GraphQLObjectType pageInfoName pageInfoOwn) /\
    RelayConnectionTransform.assertTypeWithFields I
      (GraphQL.GraphQLObjectType pageInfoName pageInfoOwn) =
      Return pageInfoType /\
    GraphQL.getFields pageInfoType = Return pageInfoFields /\
    Forall (fun fieldName =>
              exists name,
                pageInfoFields !! fieldName =
                Some (GraphQL.GraphQLScalarType name))
      [RelayConnectionTransform.END_CURSOR I;
       RelayConnectionTransform.HAS_NEXT_PAGE I;
       RelayConnectionTransform.HAS_PREV_PAGE I;
       RelayConnectionTransform.START_CURSOR I].
Proof.
  split.
  - apply ConnectionFacts.accepted_shape.
  - intros (typeWithFields & typeFields & edges & ofType & edgeName &
            edgeFields & node & cursorName & pageInfoName & pageInfoOwn &
            pageInfoType & pageInfoFields & H1 & H2 & H3 & H4 & H5 & H6 &
            H7 & H8 & H9 & H10 & H11 & H12).
    eapply ConnectionFacts.shape_accepted; eassumption.
Qed.

(** X13. A connection type that declares its page info as non-null
    ([pageInfo: PageInfo!]) is rejected: the field's type is tested with
    [instanceof GraphQLObjectType] as declared. *)
Theorem validateConnectionType_rejects_non_null_pageInfo
    (I : RelayConnectionTransform.Imports) (definitionName name : string)
    (fields : gmap string GraphQL.GraphQLType)
    (pageInfo : GraphQL.GraphQLType) :
  RelayConnectionTransform.assertTypeWithFields I
    (GraphQL.GraphQLObjectType name fields) =
    Return (GraphQL.GraphQLObjectType name fields) ->
  fields !! RelayConnectionTransform.PAGE_INFO I =
    Some (GraphQL.GraphQLNonNull pageInfo) ->
  exists err,
    RelayConnectionTransform.validateConnectionType I definitionName
      (GraphQL.GraphQLObjectType name fields) = Throw err.
Proof.
  intros Hassert Hpage.
  destruct (RelayConnectionTransform.validateConnectionType I definitionName
              (GraphQL.GraphQLObjectType name fields)) as [[]|err] eqn:H;
    [|eauto].
  apply ConnectionFacts.accepted_shape in H
    as (typeWithFields & typeFields & edges & ofType & edgeName &
        edgeFields & node & cursorName & pageInfoName & pageInfoOwn &
        pageInfoType & pageInfoFields & H1 & H2 & _ & _ & _ & _ & _ & _ &
        H9 & _).
  rewrite Hassert in H1. injection H1 as <-.
  cbn in H2. injection H2 as <-.
  rewrite Hpage in H9. discriminate.
Qed.

(** The example: a connection with [pageInfo: PageInfo!] is rejected, the
    one with [pageInfo: PageInfo] and non-null [edges] is accepted. *)
Lemma validateConnectionType_rejects_non_null_pageInfo_witness :
  (exists err,
     RelayConnectionTransform.validateConnectionType Friends.imports
       "FriendsQuery" Friends.StrictConnection = Throw err) /\
  RelayConnectionTransform.validateConnectionType Friends.imports
    "FriendsQuery" Friends.FriendsConnection = Return tt.
Proof.
  split.
  - apply (validateConnectionType_rejects_non_null_pageInfo Friends.imports
             "FriendsQuery" "StrictConnection" _ Friends.PageInfo).
    + reflexivity.
    + vm_compute. reflexivity.
  - vm_compute. reflexivity.
Defined.

(** X14. A linked field without the connection directive is returned as
    the traversal left it: nothing is validated, no definition name is
    needed, no handle is added. *)
Theorem visitLinkedField_without_directive
    (I : RelayConnectionTransform.Imports)
    (this : RelayConnectionTransform.Transformer)
    (field : RelayIR.LinkedField)
    (options : RelayConnectionTransform.Options) :
  Forall (fun d =>
            RelayIR.directive_name d <> RelayConnectionTransform.CONNECTION I)
    (RelayIR.field_directives field) ->
  RelayConnectionTransform.visitLinkedField I this field options =
  Return (RelayConnectionTransform.traverse this field options).
Proof.
  intros H. unfold RelayConnectionTransform.visitLinkedField.
  rewrite ConnectionFacts.find_isConnection_none by exact H. reflexivity.
Qed.

(** The example: [friends(first: 10) @include] comes back unchanged, even
    outside a named definition. *)
Lemma visitLinkedField_without_directive_witness :
  RelayConnectionTransform.visitLinkedField Friends.imports
    Friends.transformer Friends.plainFriends
    {| RelayConnectionTransform.opt_definitionName := None;
       RelayConnectionTransform.opt_generateRequisiteFields := true |} =
  Return Friends.plainFriends.
Proof.
  apply (visitLinkedField_without_directive Friends.imports
           Friends.transformer Friends.plainFriends).
  repeat constructor; cbn; discriminate.
Defined.

(** X15. A field with the connection directive met outside a named
    definition (the name is missing or the empty string) is an invariant
    violation, before anything is validated. *)
Theorem visitLinkedField_requires_definition_name
    (I : RelayConnectionTransform.Imports)
    (this : RelayConnectionTransform.Transformer)
    (field : RelayIR.LinkedField)
    (options : RelayConnectionTransform.Options) (d : RelayIR.Directive) :
  In d (RelayIR.field_directives field) ->
  RelayIR.directive_name d = RelayConnectionTransform.CONNECTION I ->
  RelayConnectionTransform.opt_definitionName options = None \/
  RelayConnectionTransform.opt_definitionName options = Some ""%string ->
  RelayConnectionTransform.visitLinkedField I this field options =
  Throw
    {| error_name := "Invariant Violation";
       error_format := RelayConnectionTransform.definitionNameFormat;
       error_args := [];
       error_source := None |}.
Proof.
  intros Hin Hname Hdef.
  destruct (ConnectionFacts.find_isConnection_some I _ d Hin Hname)
    as [d' Hfind].
  unfold RelayConnectionTransform.visitLinkedField. rewrite Hfind.
  destruct Hdef as [-> | ->]; reflexivity.
Qed.

(** The example: the connection field outside a named definition. *)
Lemma visitLinkedField_requires_definition_name_witness :
  RelayConnectionTransform.visitLinkedField Friends.imports
    Friends.transformer (Friends.friends [])
    {| RelayConnectionTransform.opt_definitionName := Some ""%string;
       RelayConnectionTransform.opt_generateRequisiteFields := false |} =
  Throw
    {| error_name := "Invariant Violation";
       error_format := RelayConnectionTransform.definitionNameFormat;
       error_args := [];
       error_source := None |}.
Proof.
  apply (visitLinkedField_requires_definition_name Friends.imports
           Friends.transformer (Friends.friends []) _
           (Friends.directive "connection" [])).
  - right. left. reflexivity.
  - reflexivity.
  - right. reflexivity.
Defined.

(** X16. When [visitLinkedField] returns for a field with the connection
    directive, the result is the traversed field with every connection
    directive removed and the other directives kept in order, and with
    exactly one handle appended to the handles it had: the literal
    [handle] argument of the directive when that is a non-empty string,
    [CONNECTION] when the argument is absent or the empty string; alias,
    arguments, metadata, name and type are those of the traversed field. *)
Theorem visitLinkedField_directives_and_handles
    (I : RelayConnectionTransform.Imports)
    (this : RelayConnectionTransform.Transformer)
    (field result : RelayIR.LinkedField)
    (options : RelayConnectionTransform.Options) (d : RelayIR.Directive) :
  List.find (RelayConnectionTransform.isConnection I)
    (RelayIR.field_directives field) = Some d ->
  RelayConnectionTransform.visitLinkedField I this field options =
    Return result ->
  let transformed := RelayConnectionTransform.traverse this field options in
  RelayIR.field_directives result =
    List.filter
      (fun d' => negb (RelayConnectionTransform.isConnection I d'))
      (RelayIR.field_directives transformed) /\
  Forall (fun d' =>
            RelayIR.directive_name d' <> RelayConnectionTransform.CONNECTION I)
    (RelayIR.field_directives result) /\
  (exists handle,
     RelayIR.field_handles result =
       Some (default [] (RelayIR.field_handles transformed) ++ [handle]) /\
     match handleLiteral I d with
     | None => handle = RelayConnectionTransform.CONNECTION I
     | Some (JString s) =>
         (s = ""%string -> handle = RelayConnectionTransform.CONNECTION I) /\
         (s <> ""%string -> handle = s)
     | Some _ => False
     end) /\
  RelayIR.field_alias result = RelayIR.field_alias transformed /\
  RelayIR.field_args result = RelayIR.field_args transformed /\
  RelayIR.field_metadata result = RelayIR.field_metadata transformed /\
  RelayIR.field_name result = RelayIR.field_name transformed /\
  RelayIR.field_type result = RelayIR.field_type transformed.
Proof.
  intros Hfind H transformed.
  destruct (ConnectionFacts.visit_inversion I this field options d result
              Hfind H)
    as (name & selections & _ & _ & _ & _ & Hhandle & _ & ->).
  split; [reflexivity|]. split.
  { cbn. apply List.Forall_forall. intros d' Hd'.
    apply filter_In in Hd' as [_ Hd'].
    unfold RelayConnectionTransform.isConnection in Hd'.
    destruct (String.eqb_spec (RelayIR.directive_name d')
                (RelayConnectionTransform.CONNECTION I));
      [discriminate|assumption]. }
  split; [|cbn; auto].
  eexists. split; [reflexivity|].
  fold (handleLiteral I d) in Hhandle |- *.
  destruct (handleLiteral I d) as [[| | |s| |]|]; try discriminate; cbn.
  - destruct (String.eqb_spec s ""); split; intros; congruence.
  - reflexivity.
Qed.

(** The example: [friends(first: 10) @include @connection(handle: "")]
    loses [@connection], keeps [@include] and gets the default handle. *)
Lemma visitLinkedField_directives_and_handles_witness :
  exists result,
    RelayConnectionTransform.visitLinkedField Friends.imports
      Friends.transformer
      (Friends.friends [Friends.literal "handle" (JString "")])
      (Friends.inQuery false) = Return result /\
    map RelayIR.directive_name (RelayIR.field_directives result) =
      ["include"%string] /\
    RelayIR.field_handles result = Some ["connection"%string].
Proof.
  set (field := Friends.friends [Friends.literal "handle" (JString "")]).
  set (result :=
         rebuilt Friends.imports field (RelayIR.field_selections field)
           "connection").
  assert (Hvisit :
    RelayConnectionTransform.visitLinkedField Friends.imports
      Friends.transformer field (Friends.inQuery false) = Return result)
    by (vm_compute; reflexivity).
  exists result. split; [exact Hvisit|].
  destruct (visitLinkedField_directives_and_handles Friends.imports
              Friends.transformer field result (Friends.inQuery false)
              (Friends.directive "connection"
                 [Friends.literal "handle" (JString "")])
              eq_refl Hvisit)
    as (Hdirectives & _ & (handle & Hhandles & Hdefault) & _).
  split.
  - rewrite Hdirectives. reflexivity.
  - rewrite Hhandles.
    assert (Hliteral :
      handleLiteral Friends.imports
        (Friends.directive "connection"
           [Friends.literal "handle" (JString "")]) = Some (JString ""))
      by (vm_compute; reflexivity).
    rewrite Hliteral in Hdefault. destruct Hdefault as [Hempty _].
    rewrite (Hempty eq_refl). reflexivity.
Defined.

(** X17. A field with the connection directive is only returned after it
    was validated: the options carry a non-empty definition name, the
    traversed field passed [validateConnectionSelection] and its type
    passed [validateConnectionType] under that name. *)
Theorem visitLinkedField_validated
    (I : RelayConnectionTransform.Imports)
    (this : RelayConnectionTransform.Transformer)
    (field result : RelayIR.LinkedField)
    (options : RelayConnectionTransform.Options) (d : RelayIR.Directive) :
  In d (RelayIR.field_directives field) ->
  RelayIR.directive_name d = RelayConnectionTransform.CONNECTION I ->
  RelayConnectionTransform.visitLinkedField I this field options =
    Return result ->
  let transformed := RelayConnectionTransform.traverse this field options in
  exists name,
    RelayConnectionTransform.opt_definitionName options = Some name /\
    name <> ""%string /\
    RelayConnectionTransform.validateConnectionSelection I name transformed =
      Return tt /\
    RelayConnectionTransform.validateConnectionType I name
      (RelayIR.field_type transformed) = Return tt.
Proof.
  intros Hin Hname H transformed.
  destruct (ConnectionFacts.find_isConnection_some I _ d Hin Hname)
    as [d' Hfind].
  destruct (ConnectionFacts.visit_inversion I this field options d' result
              Hfind H)
    as (name & selections & H1 & H2 & H3 & H4 & _).
  eauto.
Qed.

(** The example: the connection field of [FriendsQuery] is returned, so it
    was validated under that name. *)
Lemma visitLinkedField_validated_witness :
  RelayConnectionTransform.validateConnectionSelection Friends.imports
    "FriendsQuery" (Friends.friends []) = Return tt /\
  RelayConnectionTransform.validateConnectionType Friends.imports
    "FriendsQuery" Friends.FriendsConnection = Return tt.
Proof.
  set (result :=
         rebuilt Friends.imports (Friends.friends [])
           (RelayIR.field_selections (Friends.friends [])) "connection").
  assert (Hvisit :
    RelayConnectionTransform.visitLinkedField Friends.imports
      Friends.transformer (Friends.friends []) (Friends.inQuery false) =
    Return result) by (vm_compute; reflexivity).
  destruct (visitLinkedField_validated Friends.imports Friends.transformer
              (Friends.friends []) result (Friends.inQuery false)
              (Friends.directive "connection" [])
              (or_intror (or_introl eq_refl)) eq_refl Hvisit)
    as (name & Hname & _ & Hselection & Htype).
  injection Hname as <-. split; assumption.
Defined.

(** X18. The selections of the returned connection field: without
    [generateRequisiteFields] they are those of the traversed field; with
    it, one inline fragment is appended after them, without directives,
    conditioned on the type [assertCompositeType] returned for the field's
    type and holding the selections of the first node of the parsed
    document, which is a fragment. *)
Theorem visitLinkedField_requisite_fields
    (I : RelayConnectionTransform.Imports)
    (this : RelayConnectionTransform.Transformer)
    (field result : RelayIR.LinkedField)
    (options : RelayConnectionTransform.Options) (d : RelayIR.Directive) :
  List.find (RelayConnectionTransform.isConnection I)
    (RelayIR.field_directives field) = Some d ->
  RelayConnectionTransform.visitLinkedField I this field options =
    Return result ->
  let transformed := RelayConnectionTransform.traverse this field options in
  if RelayConnectionTransform.opt_generateRequisiteFields options
  then
    exists compositeType fragment rest,
      RelayConnectionTransform.assertCompositeType I
        (RelayIR.field_type transformed) = Return compositeType /\
      RelayConnectionTransform.parse this
        (RelayConnectionTransform.connectionFragmentText I compositeType) =
        RelayIR.FragmentNode fragment :: rest /\
      RelayIR.field_selections result =
        RelayIR.field_selections transformed ++
        [RelayIR.InlineFragmentSel [] None
           (RelayIR.fragment_selections fragment) compositeType]
  else
    RelayIR.field_selections result = RelayIR.field_selections transformed.
Proof.
  intros Hfind H transformed.
  destruct (ConnectionFacts.visit_inversion I this field options d result
              Hfind H)
    as (name & selections & _ & _ & _ & _ & _ & Hgen & ->).
  destruct (RelayConnectionTransform.opt_generateRequisiteFields options).
  - destruct Hgen as (inline & Hinline & ->).
    unfold RelayConnectionTransform.generateConnectionFragment in Hinline.
    apply ConnectionFacts.bind_Return in Hinline
      as (compositeType & Hcomposite & Hinline).
    apply ConnectionFacts.bind_Return in Hinline as ([] & Hfragment & Hinline).
    apply ConnectionFacts.invariant_Return in Hfragment.
    destruct (RelayConnectionTransform.parse this
                (RelayConnectionTransform.connectionFragmentText I
                   compositeType)) as [|[fragment|root] rest] eqn:Hparse;
      try discriminate.
    injection Hinline as <-.
    exists compositeType, fragment, rest.
    split; [exact Hcomposite|]. split; [exact Hparse|]. reflexivity.
  - subst selections. reflexivity.
Qed.

(** The example: with [generateRequisiteFields] the connection field gets
    the parsed fragment's selections as a second selection. *)
Lemma visitLinkedField_requisite_fields_witness :
  exists result,
    RelayConnectionTransform.visitLinkedField Friends.imports
      Friends.transformer (Friends.friends []) (Friends.inQuery true) =
      Return result /\
    RelayIR.field_selections result =
      [Friends.edgesSelection;
       RelayIR.InlineFragmentSel [] None [Friends.edgesSelection]
         Friends.FriendsConnection].
Proof.
  set (result :=
         rebuilt Friends.imports (Friends.friends [])
           [Friends.edgesSelection;
            RelayIR.InlineFragmentSel [] None [Friends.edgesSelection]
              Friends.FriendsConnection] "connection").
  assert (Hvisit :
    RelayConnectionTransform.visitLinkedField Friends.imports
      Friends.transformer (Friends.friends []) (Friends.inQuery true) =
    Return result) by (vm_compute; reflexivity).
  exists result. split; [exact Hvisit|].
  pose proof (visitLinkedField_requisite_fields Friends.imports
                Friends.transformer (Friends.friends []) result
                (Friends.inQuery true) (Friends.directive "connection" [])
                eq_refl Hvisit) as H.
  cbn [RelayConnectionTransform.opt_generateRequisiteFields Friends.inQuery] in H.
  destruct H as (compositeType & fragment & rest & Hcomposite & Hparse & Hsel).
  injection Hcomposite as <-. injection Hparse as <- <-. exact Hsel.
Defined.

(** ** Mutations in flight together *)

Module IsolationFacts.
Import RelayPublishQueue QueueFacts WorldFacts MutationFacts LifecycleFacts.

Lemma occurrences_revert_other U r w :
  r <> updater_ref U ->
  occurrences r (publishQueue (publishQueue_revertUpdate U w)) =
  occurrences r (publishQueue w).
Proof.
  intros Hne. apply (occurrences_perform r (OpRevertUpdate U)). cbn.
  apply Nat.eqb_neq. congruence.
Qed.

Lemma occurrences_apply_other U r w :
  r <> updater_ref U ->
  occurrences r (publishQueue (publishQueue_applyUpdate U w)) =
  occurrences r (publishQueue w).
Proof.
  intros Hne. apply (occurrences_perform r (OpApplyUpdate U)). cbn.
  apply Nat.eqb_neq. congruence.
Qed.

Lemma step_own r U oc oe operation opt0 updater s ev :
  r <> updater_ref U ->
  RelayStaticEnvironment.mutation_args (fst s) =
    mutationArgs oc oe operation opt0 updater ->
  RelayStaticEnvironment.optimisticUpdater (fst s) = Some U \/
  RelayStaticEnvironment.optimisticUpdater (fst s) = None ->
  isTerminal ev = true ->
  occurrences r (publishQueue (snd (step s ev))) =
    occurrences r (publishQueue (snd s)) /\
  RelayStaticEnvironment.mutation_args (fst (step s ev)) =
    mutationArgs oc oe operation opt0 updater /\
  (RelayStaticEnvironment.optimisticUpdater (fst (step s ev)) = Some U \/
   RelayStaticEnvironment.optimisticUpdater (fst (step s ev)) = None).
Proof.
  destruct s as [m w]. cbn [fst snd]. intros Hne Hargs Hopt Hev.
  destruct ev as [|settled|ops]; [| |discriminate]; cbn [step fst snd].
  - unfold RelayStaticEnvironment.dispose; cbn [fst snd
      RelayStaticEnvironment.mutation_args
      RelayStaticEnvironment.optimisticUpdater].
    split; [|auto].
    destruct Hopt as [-> | ->]; [|reflexivity].
    unfold seq. rewrite occurrences_run.
    apply occurrences_revert_other. exact Hne.
  - split; [|auto].
    destruct (RelayStaticEnvironment.isDisposed m) eqn:Hd.
    + rewrite settle_disposed by exact Hd. reflexivity.
    + destruct (settle_not_disposed m settled w _ _ _ _ _ Hargs Hd) as [_ Ho].
      rewrite Ho.
      destruct Hopt as [-> | ->]; cbn [RelayStaticEnvironment.revertIfSet];
        [|reflexivity].
      apply occurrences_revert_other. exact Hne.
Qed.

Lemma steps_own r U oc oe operation opt0 updater h : forall s,
  r <> updater_ref U ->
  RelayStaticEnvironment.mutation_args (fst s) =
    mutationArgs oc oe operation opt0 updater ->
  RelayStaticEnvironment.optimisticUpdater (fst s) = Some U \/
  RelayStaticEnvironment.optimisticUpdater (fst s) = None ->
  forallb isTerminal h = true ->
  occurrences r (publishQueue (snd (steps h s))) =
  occurrences r (publishQueue (snd s)).
Proof.
  induction h as [|ev h IH]; intros s Hne Hargs Hopt Hh; cbn in *;
    [reflexivity|].
  apply andb_true_iff in Hh as [Hev Hh].
  destruct (step_own r U oc oe operation opt0 updater s ev Hne Hargs Hopt Hev)
    as (Hocc & Hargs' & Hopt').
  unfold steps in IH. rewrite (IH _ Hne Hargs' Hopt' Hh). exact Hocc.
Qed.

End IsolationFacts.

(** X19. A mutation touches no optimistic entry but its own: sending it
    with optimistic updater [U], then any sequence of its response
    arriving (success or failure) and of [dispose()] calls, leaves every
    entry with another reference queued as often as before the mutation
    was sent, and so queued exactly if it was.  (The queue is the one
    of the publish-queue model, in which [revertUpdate] matches entries by
    reference.) *)
Theorem mutation_leaves_other_entries
    (onCompleted onError : option nat) (operation : OperationSelector)
    (U : StoreUpdater) (updater : option SelectorStoreUpdater)
    (h : list MutationEvent) (r : nat) (w0 : World) :
  r <> updater_ref U ->
  forallb isTerminal h = true ->
  let s0 :=
    RelayStaticEnvironment.sendMutation
      (mutationArgs onCompleted onError operation (Some U) updater) w0 in
  occurrences r (publishQueue (snd (steps h s0))) =
    occurrences r (publishQueue w0) /\
  RelayPublishQueue.queued r (publishQueue (snd (steps h s0))) =
    RelayPublishQueue.queued r (publishQueue w0).
Proof.
  intros Hne Hh s0.
  assert (Hocc : occurrences r (publishQueue (snd (steps h s0))) =
                 occurrences r (publishQueue w0)).
  { rewrite (IsolationFacts.steps_own r U onCompleted onError operation
               (Some U) updater h s0 Hne eq_refl (or_introl eq_refl) Hh).
    subst s0. cbn [snd RelayStaticEnvironment.sendMutation mutationArgs
      RelayStaticEnvironment.mutation_optimisticUpdater].
    unfold RelayNetwork.request, seq.
    change (publishQueue (emit ?e ?w)) with (publishQueue w).
    rewrite WorldFacts.occurrences_run.
    apply IsolationFacts.occurrences_apply_other. exact Hne. }
  split; [exact Hocc|].
  rewrite !WorldFacts.occurrences_queued, Hocc. reflexivity.
Qed.

(** The example: the post was marked as seen optimistically by another
    caller; the like is sent, fails and is disposed: the other entry is
    still queued. *)
Lemma mutation_leaves_other_entries_witness :
  let w0 := RelayStaticEnvironment.applyUpdate Likes.markSeen Likes.before in
  let s0 :=
    RelayStaticEnvironment.sendMutation
      (mutationArgs (Some 7) (Some 8) Likes.likeMutation
         (Some Likes.increment) None) w0 in
  RelayPublishQueue.queued 2
    (publishQueue
       (snd (steps [Settle (Rejected Likes.networkError); Dispose] s0))) = true.
Proof.
  intros w0 s0.
  destruct (mutation_leaves_other_entries (Some 7) (Some 8) Likes.likeMutation
              Likes.increment None
              [Settle (Rejected Likes.networkError); Dispose] 2 w0
              (fun H : 2 = updater_ref Likes.increment =>
                 match H in _ = n
                       return match n with 2 => True | _ => False end
                 with eq_refl => Logic.I end)
              eq_refl)
    as [_ Hqueued].
  exact Hqueued.
Defined.

(** ** Subscriptions and queries *)

(** X9. A subscription against a query.  For the same configuration,
    issuing either makes the same call to the transport.  When [onNext] and
    [onCompleted] return, the handlers of [sendQuerySubscription] change
    the world exactly as those of [sendQuery] do, whatever the transport
    settles with.  When [onNext] throws they differ: [sendQuery] chains
    [.then(f).catch(g)], so that what [onNext] throws reaches [onError];
    [requestSubscription] passes both handlers to one [then], so that the
    error is dropped and [onError] is not called.  [onCompleted] is called
    on neither path, and the payload was committed on both. *)
Theorem subscription_behaves_as_query
    (X : Collaborators) (config : RelayStaticEnvironment.QueryConfig)
    (w0 : World) :
  let s := fst (RelayStaticEnvironment.sendQuerySubscription config w0) in
  let q := fst (RelayStaticEnvironment.sendQuery config w0) in
  let operation := RelayStaticEnvironment.query_operation config in
  let selector := rootSelector X (op_node operation) (op_variables operation) in
  snd (RelayStaticEnvironment.sendQuerySubscription config w0) =
    snd (RelayStaticEnvironment.sendQuery config w0) /\
  (returns (RelayStaticEnvironment.query_onNext config) ->
   returns (RelayStaticEnvironment.query_onCompleted config) ->
   forall fetched w,
     RelayNetwork.subscription_settle X s fetched w =
     RelayStaticEnvironment.sendQuery_fetched X q fetched w) /\
  (forall r thrown oe d errs relayPayload w,
     RelayStaticEnvironment.query_onNext config =
       Some (throwingNext r thrown) ->
     RelayStaticEnvironment.query_onError config = Some (observeError oe) ->
     normalizeRelayPayload X selector d strippedNulls = Return relayPayload ->
     let fetched := Resolved {| data := Some d; errors := errs |} in
     let delivered :=
       {| publishQueue :=
            fst (RelayPublishQueue.run
                   (RelayPublishQueue.commitPayload (op_fragment operation)
                      relayPayload None (publishQueue w)));
          store :=
            snd (RelayPublishQueue.run
                   (RelayPublishQueue.commitPayload (op_fragment operation)
                      relayPayload None (publishQueue w)));
          log :=
            log w ++ warned (op_node operation) (op_variables operation) errs ++
            [EvNormalize selector d strippedNulls;
             EvCommitPayload (op_fragment operation) relayPayload None; EvRun;
             EvOnNext r relayPayload] |} in
     RelayNetwork.subscription_settle X s fetched w = delivered /\
     RelayStaticEnvironment.sendQuery_fetched X q fetched w =
       emit (EvOnError oe thrown) delivered).
Proof.
  intros s q operation selector.
  split; [reflexivity|]. split.
  - intros Hnext Hcompleted fetched w.
    subst s q selector operation.
    destruct config as [cacheConfig onCompleted onError onNext operation].
    cbn [RelayStaticEnvironment.query_onNext
         RelayStaticEnvironment.query_onCompleted] in Hnext, Hcompleted.
    destruct fetched as [[[d|] errs]|error]; [|reflexivity|reflexivity].
    unfold RelayStaticEnvironment.sendQuery_fetched,
      RelayNetwork.subscription_settle, outcome,
      RelayNetwork.subscription_fulfilled, RelayNetwork.request_resume.
    cbn [fst RelayStaticEnvironment.sendQuerySubscription
         RelayStaticEnvironment.sendQuery
         RelayNetwork.requestSubscription RelayNetwork.sub_isDisposed
         RelayNetwork.sub_operation RelayNetwork.sub_variables
         RelayNetwork.sub_observer RelayNetwork.obs_onNext
         RelayNetwork.obs_onError RelayNetwork.obs_onCompleted
         RelayStaticEnvironment.query_config
         RelayStaticEnvironment.query_operation
         RelayStaticEnvironment.query_onNext
         RelayStaticEnvironment.query_onError
         RelayStaticEnvironment.query_onCompleted
         RelayStaticEnvironment.query_cacheConfig].
    rewrite ResponseFacts.normalizePayload_data.
    destruct (normalizeRelayPayload X _ d _) as [relayPayload|err];
      [|reflexivity].
    unfold RelayStaticEnvironment.sendQuery_settle, outcome, catching,
      RelayStaticEnvironment.sendQuery_then, andThen, returning.
    cbn [RelayStaticEnvironment.query_isDisposed
         RelayStaticEnvironment.query_config
         RelayStaticEnvironment.query_operation
         RelayStaticEnvironment.query_onNext
         RelayStaticEnvironment.query_onCompleted callIf].
    destruct onNext as [next|]; cbn [callIf].
    + match goal with
      | |- context [next relayPayload ?w1] =>
          pose proof (Hnext relayPayload w1) as Hn;
          destruct (next relayPayload w1) as [[[]|thrown] w2]
      end; [|discriminate Hn].
      destruct onCompleted as [completed|]; cbn [callIf]; [|reflexivity].
      pose proof (Hcompleted tt w2) as Hc.
      destruct (completed tt w2) as [[[]|thrown] w3];
        [reflexivity|discriminate Hc].
    + unfold returning, skip.
      destruct onCompleted as [completed|]; cbn [callIf]; [|reflexivity].
      match goal with
      | |- context [completed tt ?w1] =>
          pose proof (Hcompleted tt w1) as Hc;
          destruct (completed tt w1) as [[[]|thrown] w3]
      end; [reflexivity|discriminate Hc].
  - intros r thrown oe d errs relayPayload w Hnext Herror Hnormalizer
      fetched delivered.
    subst s q fetched delivered selector operation.
    destruct config as [cacheConfig onCompleted onError onNext operation].
    cbn [RelayStaticEnvironment.query_onNext
         RelayStaticEnvironment.query_onError
         RelayStaticEnvironment.query_operation] in *.
    subst onNext onError.
    unfold RelayStaticEnvironment.sendQuery_fetched,
      RelayNetwork.subscription_settle, outcome,
      RelayNetwork.subscription_fulfilled, RelayNetwork.request_resume.
    cbn [fst RelayStaticEnvironment.sendQuerySubscription
         RelayStaticEnvironment.sendQuery
         RelayNetwork.requestSubscription RelayNetwork.sub_isDisposed
         RelayNetwork.sub_operation RelayNetwork.sub_variables
         RelayNetwork.sub_observer RelayNetwork.obs_onNext
         RelayNetwork.obs_onError RelayNetwork.obs_onCompleted
         RelayStaticEnvironment.query_config
         RelayStaticEnvironment.query_operation
         RelayStaticEnvironment.query_onNext
         RelayStaticEnvironment.query_onError
         RelayStaticEnvironment.query_onCompleted
         RelayStaticEnvironment.query_cacheConfig].
    rewrite ResponseFacts.normalizePayload_data, Hnormalizer.
    split.
    + cbn. unfold emit; cbn. rewrite <- !app_assoc. reflexivity.
    + cbn. unfold emit; cbn. rewrite <- !app_assoc. reflexivity.
Qed.

(** The example: a query and a subscription for the post, answered with 42
    likes.  With callbacks that return both leave the same world; with an
    [onNext] that throws both show 42 likes, and only the query calls
    [onError]. *)
Lemma subscription_behaves_as_query_witness :
  let response :=
    Resolved {| data := Some (JObject [("likeCount"%string, JNumber 42)]);
                errors := None |} in
  let config := queryConfig None (Some 7) (Some 8) (Some 9) Likes.likeMutation in
  let throwing :=
    {| RelayStaticEnvironment.query_cacheConfig := None;
       RelayStaticEnvironment.query_onCompleted := Some (observeCompleted 7);
       RelayStaticEnvironment.query_onError := Some (observeError 8);
       RelayStaticEnvironment.query_onNext :=
         Some (throwingNext 9 Likes.malformed);
       RelayStaticEnvironment.query_operation := Likes.likeMutation |} in
  RelayNetwork.subscription_settle Likes.collaborators
    (fst (RelayStaticEnvironment.sendQuerySubscription config Likes.before))
    response Likes.before =
  RelayStaticEnvironment.sendQuery_fetched Likes.collaborators
    (fst (RelayStaticEnvironment.sendQuery config Likes.before))
    response Likes.before /\
  List.filter isCallback
    (log (RelayNetwork.subscription_settle Likes.collaborators
            (fst (RelayStaticEnvironment.sendQuerySubscription throwing
                    Likes.before))
            response Likes.before)) =
    [EvOnNext 9 Likes.confirmed] /\
  List.filter isCallback
    (log (RelayStaticEnvironment.sendQuery_fetched Likes.collaborators
            (fst (RelayStaticEnvironment.sendQuery throwing Likes.before))
            response Likes.before)) =
    [EvOnNext 9 Likes.confirmed; EvOnError 8 Likes.malformed].
Proof.
  intros response config throwing.
  destruct (subscription_behaves_as_query Likes.collaborators config
              Likes.before) as (_ & Hsame & _).
  destruct (subscription_behaves_as_query Likes.collaborators throwing
              Likes.before) as (_ & _ & Hthrows).
  destruct (Hthrows 9 Likes.malformed 8
              (JObject [("likeCount"%string, JNumber 42)]) None
              Likes.confirmed Likes.before eq_refl eq_refl eq_refl)
    as [Hsubscription Hquery].
  split; [|split].
  - exact (Hsame (fun _ _ => eq_refl) (fun _ _ => eq_refl) response
             Likes.before).
  - refine (eq_trans (f_equal (fun w => List.filter isCallback (log w))
                        Hsubscription) _).
    reflexivity.
  - refine (eq_trans (f_equal (fun w => List.filter isCallback (log w))
                        Hquery) _).
    reflexivity.
Defined.

(** ** Errors of the connection transform *)

(** X20. A type without an [EDGES] field is rejected with the invariant
    error that names the type, [EDGES] and the document. *)
Theorem validateConnectionType_requires_edges
    (I : RelayConnectionTransform.Imports) (definitionName : string)
    (type typeWithFields : GraphQL.GraphQLType)
    (typeFields : gmap string GraphQL.GraphQLType) :
  RelayConnectionTransform.assertTypeWithFields I type =
    Return typeWithFields ->
  GraphQL.getFields typeWithFields = Return typeFields ->
  typeFields !! RelayConnectionTransform.EDGES I = None ->
  RelayConnectionTransform.validateConnectionType I definitionName type =
  Throw
    {| error_name := "Invariant Violation";
       error_format := RelayConnectionTransform.typeEdgesFormat;
       error_args :=
         [GraphQL.toString type; RelayConnectionTransform.EDGES I;
          definitionName];
       error_source := None |}.
Proof.
  intros Hassert Hfields Hedges.
  unfold RelayConnectionTransform.validateConnectionType.
  rewrite Hassert; cbn. rewrite Hfields; cbn. rewrite Hedges. reflexivity.
Qed.

(** The example: [PageInfo] is no connection. *)
Lemma validateConnectionType_requires_edges_witness :
  RelayConnectionTransform.validateConnectionType Friends.imports
    "FriendsQuery" Friends.PageInfo =
  Throw
    {| error_name := "Invariant Violation";
       error_format := RelayConnectionTransform.typeEdgesFormat;
       error_args := ["PageInfo"; "edges"; "FriendsQuery"]%string;
       error_source := None |}.
Proof.
  apply (validateConnectionType_requires_edges Friends.imports
           "FriendsQuery" Friends.PageInfo Friends.PageInfo
           {[ "endCursor"%string := Friends.String_;
              "hasNextPage"%string := Friends.Boolean_;
              "hasPreviousPage"%string := Friends.Boolean_;
              "startCursor"%string := Friends.String_ ]}).
  - reflexivity.
  - reflexivity.
  - vm_compute. reflexivity.
Defined.

(** X21. A [handle] argument that is a literal but not a string (a
    number, a boolean, null, a list, an object) makes [visitLinkedField]
    throw the handle invariant error, after the field was validated. *)
Theorem visitLinkedField_rejects_non_string_handle
    (I : RelayConnectionTransform.Imports)
    (this : RelayConnectionTransform.Transformer)
    (field : RelayIR.LinkedField)
    (options : RelayConnectionTransform.Options) (d : RelayIR.Directive)
    (name : string) (value : JSON) :
  List.find (RelayConnectionTransform.isConnection I)
    (RelayIR.field_directives field) = Some d ->
  RelayConnectionTransform.opt_definitionName options = Some name ->
  name <> ""%string ->
  RelayConnectionTransform.validateConnectionSelection I name
    (RelayConnectionTransform.traverse this field options) = Return tt ->
  RelayConnectionTransform.validateConnectionType I name
    (RelayIR.field_type
       (RelayConnectionTransform.traverse this field options)) = Return tt ->
  handleLiteral I d = Some value ->
  (forall s, value <> JString s) ->
  RelayConnectionTransform.visitLinkedField I this field options =
  Throw
    {| error_name := "Invariant Violation";
       error_format := RelayConnectionTransform.handleFormat;
       error_args :=
         [RelayConnectionTransform.HANDLE I;
          RelayConnectionTransform.CONNECTION I];
       error_source := None |}.
Proof.
  intros Hfind Hname Hne Hselection Htype Hliteral Hvalue.
  unfold RelayConnectionTransform.visitLinkedField.
  rewrite Hfind, Hname. cbn [RelayConnectionTransform.truthy default].
  destruct (String.eqb_spec name ""); [contradiction|]. cbn.
  rewrite Hselection; cbn. rewrite Htype; cbn.
  unfold handleLiteral in Hliteral. rewrite Hliteral.
  destruct value; try reflexivity. elim (Hvalue s). reflexivity.
Qed.

(** The example: [@connection(handle: 3)]. *)
Lemma visitLinkedField_rejects_non_string_handle_witness :
  RelayConnectionTransform.visitLinkedField Friends.imports
    Friends.transformer
    (Friends.friends [Friends.literal "handle" (JNumber 3)])
    (Friends.inQuery false) =
  Throw
    {| error_name := "Invariant Violation";
       error_format := RelayConnectionTransform.handleFormat;
       error_args := ["handle"; "connection"]%string;
       error_source := None |}.
Proof.
  apply (visitLinkedField_rejects_non_string_handle Friends.imports
           Friends.transformer
           (Friends.friends [Friends.literal "handle" (JNumber 3)])
           (Friends.inQuery false)
           (Friends.directive "connection"
              [Friends.literal "handle" (JNumber 3)])
           "FriendsQuery" (JNumber 3)).
  - reflexivity.
  - reflexivity.
  - discriminate.
  - vm_compute. reflexivity.
  - vm_compute. reflexivity.
  - vm_compute. reflexivity.
  - discriminate.
Defined.
